(** * Value-free policy construction and Bellman evaluation

    A shallow embedding of [my_policy.py], [bellman.py], [policy_eval.py]
    and [run.py].

    Conventions of the embedding.
    - A Python [dict] is a [gmap]; [d[k]] on a missing key raises [KeyError].
    - A state is a pair (identifier, tag); [s[1]] is the tag, a string.
    - Actions are the strings of the fallback definitions of [my_policy.py].
    - Probabilities and values are rationals: every finite float is a
      rational, and the order on floats is the order on rationals.
    - A Python exception is the [Raise] outcome; the [while] loop of
      [_build] is unrolled by a fuel argument, [OutOfFuel] being the outcome
      of a run that was given too little of it. *)

From Stdlib Require Import QArith Qabs Qminmax Qfield Lqa.
From stdpp Require Import gmap strings list fin_maps.

Open Scope string_scope.
Open Scope list_scope.
Open Scope nat_scope.

(** ** Outcomes of a computation *)

Inductive exn : Type :=
  | KeyError
  | IndexError
  | ValueError (msg : string)
  | ZeroDivisionError
  | LinAlgError.

Inductive result (A : Type) : Type :=
  | Ok (a : A)
  | Raise (e : exn)
  | OutOfFuel.

Arguments Ok {A} a.
Arguments Raise {A} e.
Arguments OutOfFuel {A}.

Definition bind {A B : Type} (m : result A) (k : A → result B) : result B :=
  match m with
  | Ok a => k a
  | Raise e => Raise e
  | OutOfFuel => OutOfFuel
  end.

Notation "' p ←r m ; k" := (bind m (λ p, k))
  (at level 20, p pattern, m at level 100, k at level 200, right associativity).
Notation "x ←r m ; k" := (bind m (λ x, k))
  (at level 20, m at level 100, k at level 200, right associativity).

(** A [for] loop whose body may raise. *)
Fixpoint for_each {A X : Type} (body : A → X → result A) (acc : A) (l : list X)
  : result A :=
  match l with
  | [] => Ok acc
  | x :: l' => acc' ←r body acc x; for_each body acc' l'
  end.

(** ** Distances: non-negative integers and [math.inf] *)

Inductive dist : Type :=
  | Fin (n : nat)
  | Inf.

Global Instance dist_eq_dec : EqDecision dist.
Proof. solve_decision. Defined.

(** [x + 1] *)
Definition dist_succ (x : dist) : dist :=
  match x with
  | Fin n => Fin (S n)
  | Inf => Inf
  end.

(** [x < y] *)
Definition dist_ltb (x y : dist) : bool :=
  match x, y with
  | Fin n, Fin m => n <? m
  | Fin _, Inf => true
  | Inf, _ => false
  end.

Definition dist_le (x y : dist) : Prop :=
  match x, y with
  | Fin n, Fin m => n ≤ m
  | _, Inf => True
  | Inf, Fin _ => False
  end.

Definition dist_lt (x y : dist) : Prop := dist_ltb x y = true.

(** ** Actions *)

Definition Action : Type := string.

Definition UP : Action := "UP".
Definition RIGHT : Action := "RIGHT".
Definition DOWN : Action := "DOWN".
Definition LEFT : Action := "LEFT".
Definition ABSORB : Action := "⊥".

(** The default value of the [tie_break] argument of [MyPolicy.__init__]. *)
Definition default_tie_break : list Action := [RIGHT; DOWN; LEFT; UP].

(** [tuple.index(a)]: position of the first occurrence, [ValueError] when
    there is none. *)
Fixpoint tuple_index (l : list Action) (a : Action) : result nat :=
  match l with
  | [] => Raise (ValueError "tuple.index(x): x not in tuple")
  | b :: l' =>
      if decide (b = a) then Ok 0
      else i ←r tuple_index l' a; Ok (S i)
  end.

(** [max(succs, key=lambda x: x[1])]: the first element whose key is
    maximal. [best] is the maximum of the elements seen so far. *)
Fixpoint max_by_prob {X : Type} (best : X * Q) (l : list (X * Q)) : X * Q :=
  match l with
  | [] => best
  | x :: l' =>
      max_by_prob (if Qle_bool (snd x) (snd best) then best else x) l'
  end.

(** ** Bellman evaluation ([bellman.py], [policy_eval.py]) *)

(** A vector of shape [(S,)] and a matrix of shape [(S, S)], by rows. The
    operations below are numpy's on aligned shapes. *)
Definition vector : Type := list Q.
Definition matrix : Type := list (list Q).

(** One row of [P @ v]. *)
Definition dot (row v : vector) : Q :=
  foldr (λ px acc, (fst px * snd px + acc)%Q) 0%Q (zip row v).

(** [P @ v] *)
Definition matvec (P : matrix) (v : vector) : vector :=
  map (λ row, dot row v) P.

(** [bellman_update]: [r + gamma * (P @ v)]. *)
Definition bellman_update (v : vector) (P : matrix) (r : vector) (gamma : Q)
  : vector :=
  zip_with (λ ri pv, (ri + gamma * pv)%Q) r (matvec P v).

(** [np.zeros_like(r)] *)
Definition zeros_like (r : vector) : vector := map (λ _, 0%Q) r.

(** [np.max(np.abs(v_new - v))]; [np.max] of an empty array raises. *)
Definition sup_norm_change (v_new v : vector) : result Q :=
  match zip_with (λ x y, Qabs (x - y)) v_new v with
  | [] => Raise (ValueError "zero-size array to reduction operation maximum")
  | x :: l => Ok (foldl Qmax x l)
  end.

(** [eps * (1 - gamma) / gamma] on Python floats. *)
Definition threshold (eps gamma : Q) : result Q :=
  if Qeq_bool gamma 0 then Raise ZeroDivisionError
  else Ok (eps * (1 - gamma) / gamma)%Q.

(** [x < y] *)
Definition Qlt_bool (x y : Q) : bool := negb (Qle_bool y x).

(** The [for _ in range(max_iters)] loop of [iterative_policy_evaluation],
    [n] iterations remaining, followed by [return v]. *)
Fixpoint ipe_loop (P : matrix) (r : vector) (gamma eps : Q) (n : nat)
  (v : vector) : result vector :=
  match n with
  | O => Ok v
  | S n' =>
      let v_new := bellman_update v P r gamma in
      change ←r sup_norm_change v_new v;
      thr ←r threshold eps gamma;
      if Qlt_bool change thr then Ok v
      else ipe_loop P r gamma eps n' v_new
  end.

Definition iterative_policy_evaluation (P : matrix) (r : vector) (gamma : Q)
  (eps : Q) (max_iters : Z) : result vector :=
  ipe_loop P r gamma eps (Z.to_nat max_iters) (zeros_like r).

(** The defaults of [eps] and [max_iters]. *)
Definition default_eps : Q := 1 # 1000000.
Definition default_max_iters : Z := 100000.

(** [np.eye(n)] *)
Definition eye (n : nat) : matrix :=
  map (λ i, map (λ j, if decide (i = j) then 1%Q else 0%Q) (seq 0 n)) (seq 0 n).

(** [I - gamma * P] *)
Definition I_minus_gamma_P (gamma : Q) (P : matrix) : matrix :=
  zip_with (zip_with (λ e p, (e - gamma * p)%Q)) (eye (length P)) P.

Section Exact.

(** [np.linalg.solve] is LAPACK code outside the repository. *)
Variable linalg_solve : matrix → vector → result vector.

Definition exact_policy_evaluation (P : matrix) (r : vector) (gamma : Q)
  : result vector :=
  linalg_solve (I_minus_gamma_P gamma P) r.

End Exact.

(** ** The policy ([my_policy.py]) and the entry point ([run.py]) *)

(** What [run] does that its caller can observe besides its result, and
    which evaluator it called. *)
Inductive event : Type :=
  | CallExact
  | CallIterative
  | PrintFitness (f_pi : Q)
  | PlotPolicy.

Section Policy.

(** Identifiers of states are opaque and hashable. *)
Context {Id : Type} `{Countable Id}.

(** [np.random.Generator] *)
Context {Generator : Type}.

Definition State : Type := (Id * string)%type.

(** The capability set of [mdp.MDP]. *)
Record MDP : Type := {
  transition : State → Action → list (State * Q);
  is_terminal : State → bool;
  actions : State → list Action;
  start_state : State
}.

(** [d[k]] *)
Definition getitem {V : Type} (d : gmap State V) (k : State) : result V :=
  match d !! k with
  | Some v => Ok v
  | None => Raise KeyError
  end.

(** The attributes of a [MyPolicy] object. *)
Record MyPolicy : Type := {
  self_mdp : MDP;
  self_rng : Generator;
  self_tie_break : list Action;
  self_states : list State;
  self_state_idx : gmap State nat;
  self_policy : gmap State Action
}.

(** [MyPolicy._decision]: [self._policy.get(s, ABSORB)]. *)
Definition _decision (self : MyPolicy) (s : State) : Action :=
  default ABSORB (self_policy self !! s).

Section Build.

Variable mdp : MDP.
Variable tie_break : list Action.

(** [MyPolicy._most_likely_successor] *)
Definition _most_likely_successor (s : State) (a : Action) : State :=
  match transition mdp s a with
  | x :: succs => fst (max_by_prob x succs)
  | [] => s
  end.

(** [d = {s: math.inf for s in self._states}] *)
Definition init_dist (states : list State) : gmap State dist :=
  foldl (λ d s, <[s := Inf]> d) ∅ states.

(** [s[1] == "G" or s[1] == "⊥"] *)
Definition is_seed (s : State) : bool :=
  bool_decide (snd s = "G") || bool_decide (snd s = "⊥").

(** The seeding loop: [d[s] = 0; queue.append(s)]. *)
Definition seed (c : gmap State dist * list State) (s : State)
  : gmap State dist * list State :=
  if is_seed s then (<[s := Fin 0]> (fst c), snd c ++ [s]) else c.

Definition seeded (states : list State) : gmap State dist * list State :=
  foldl seed (init_dist states, []) states.

(** The body of the two nested [for] loops of the relaxation, for the
    dequeued state [s_next]. *)
Definition relax_body (s_next : State) (c : gmap State dist * list State)
  (s : State) (a : Action) : result (gmap State dist * list State) :=
  let '(d, queue) := c in
  if is_terminal mdp s then Ok c
  else if decide (_most_likely_successor s a = s_next) then
    ds ←r getitem d s;
    dn ←r getitem d s_next;
    if dist_ltb (dist_succ dn) ds
    then Ok (<[s := dist_succ dn]> d, queue ++ [s])
    else Ok c
  else Ok c.

(** [for s in self._states: for a in [UP, RIGHT, DOWN, LEFT]: ...] *)
Definition scan (states : list State) (s_next : State)
  (c : gmap State dist * list State)
  : result (gmap State dist * list State) :=
  for_each
    (λ c s, for_each (λ c a, relax_body s_next c s a) c [UP; RIGHT; DOWN; LEFT])
    c states.

(** [while queue: s_next = queue.popleft(); ...]; the result is [d]. *)
Fixpoint relax (fuel : nat) (states : list State)
  (c : gmap State dist * list State) : result (gmap State dist) :=
  match fuel with
  | O => OutOfFuel
  | S fuel' =>
      match snd c with
      | [] => Ok (fst c)
      | s_next :: queue =>
          c' ←r scan states s_next (fst c, queue);
          relax fuel' states c'
      end
  end.

(** The effective distance of the successor [s_next]. *)
Definition candidate (d : gmap State dist) (s_next : State) : result dist :=
  if decide (snd s_next = "H") then Ok Inf else getitem d s_next.

(** The body of [for a in self.mdp.actions(s)], on [(best_a, best_d)]. *)
Definition choose (d : gmap State dist) (s : State)
  (best : option Action * dist) (a : Action)
  : result (option Action * dist) :=
  let '(best_a, best_d) := best in
  let s_next := _most_likely_successor s a in
  candidate_d ←r candidate d s_next;
  better ←r
    (if dist_ltb candidate_d best_d then Ok true
     else if decide (candidate_d = best_d) then
       match best_a with
       | None => Ok true
       | Some b =>
           ia ←r tuple_index tie_break a;
           ib ←r tuple_index tie_break b;
           Ok (ia <? ib)
       end
     else Ok false);
  if better : bool then Ok (Some a, candidate_d) else Ok best.

(** The body of the extraction loop [for s in self._states]. *)
Definition extract_body (d : gmap State dist) (policy : gmap State Action)
  (s : State) : result (gmap State Action) :=
  if is_terminal mdp s then Ok policy
  else
    best ←r for_each (choose d s) (None, Inf) (actions mdp s);
    match fst best with
    | Some best_a => Ok (<[s := best_a]> policy)
    | None => Ok policy
    end.

Definition extract (states : list State) (d : gmap State dist)
  : result (gmap State Action) :=
  for_each (extract_body d) ∅ states.

(** [MyPolicy._build], given [self._states]; the results are the distance
    map and [self._policy]. *)
Definition distances (fuel : nat) (states : list State)
  : result (gmap State dist) :=
  relax fuel states (seeded states).

Definition _build (fuel : nat) (states : list State)
  : result (gmap State Action) :=
  d ←r distances fuel states;
  extract states d.

End Build.

(** The collaborators [mdp_utils.enumerate_states] and
    [mdp_utils.build_policy_Pr], [np.linalg.solve], and the generator that
    [np.random.default_rng()] returns. *)
Variable enumerate_states : MDP → list State.
Variable build_policy_Pr :
  MDP → MyPolicy → list State → gmap State nat → result (matrix * vector).
Variable linalg_solve : matrix → vector → result vector.
Variable default_rng : Generator.

(** [MyPolicy.__init__] *)
Definition MyPolicy_init (fuel : nat) (mdp : MDP) (rng : Generator)
  (tie_break : list Action) : result MyPolicy :=
  let states := enumerate_states mdp in
  policy ←r _build mdp tie_break fuel states;
  Ok {| self_mdp := mdp; self_rng := rng; self_tie_break := tie_break;
        self_states := states; self_state_idx := ∅;
        self_policy := policy |}.

(** [{s: i for i, s in enumerate(states)}] *)
Definition index_map (states : list State) : gmap State nat :=
  foldl (λ m p, <[snd p := fst p]> m) ∅ (imap (λ i s, (i, s)) states).

(** [v[i]] *)
Definition vector_get (v : vector) (i : nat) : result Q :=
  match v !! i with
  | Some x => Ok x
  | None => Raise IndexError
  end.

(** The [if]/[elif]/[else] on [method] in [run]. *)
Definition evaluate (method : string) (P : matrix) (r : vector) (gamma : Q)
  : list event * result vector :=
  if decide (method = "exact") then
    ([CallExact], exact_policy_evaluation linalg_solve P r gamma)
  else if decide (method = "iterative") then
    ([CallIterative],
     iterative_policy_evaluation P r gamma default_eps default_max_iters)
  else ([], Raise (ValueError ("Unknown method '" ++ method ++ "'")%string)).

(** [run] *)
Definition run (fuel : nat) (mdp : MDP) (gamma : Q) (rng : option Generator)
  (method : string) : list event * result (MyPolicy * vector * Q) :=
  let rng := default default_rng rng in
  match MyPolicy_init fuel mdp rng default_tie_break with
  | Ok pi =>
      let states := enumerate_states mdp in
      let state_idx := index_map states in
      match build_policy_Pr mdp pi states state_idx with
      | Ok (P, r) =>
          let '(called, ev) := evaluate method P r gamma in
          match ev with
          | Ok v =>
              let s0 := start_state mdp in
              match (i ←r getitem state_idx s0; vector_get v i) with
              | Ok f_pi => (called ++ [PrintFitness f_pi; PlotPolicy], Ok (pi, v, f_pi))
              | Raise e => (called, Raise e)
              | OutOfFuel => (called, OutOfFuel)
              end
          | Raise e => (called, Raise e)
          | OutOfFuel => (called, OutOfFuel)
          end
      | Raise e => ([], Raise e)
      | OutOfFuel => ([], OutOfFuel)
      end
  | Raise e => ([], Raise e)
  | OutOfFuel => ([], OutOfFuel)
  end.

End Policy.

(** ** Notions used to state the properties *)

Section Notions.

Context {Id : Type} `{Countable Id}.

(** No key is lost or gained and no value is larger in [d'] than in [d]. *)
Definition dist_nonincreasing (d d' : gmap (@State Id) dist) : Prop :=
  ∀ x, option_Forall2 dist_le (d' !! x) (d !! x).

(** The most-likely-successor graph: an edge for every state and every
    directional action. *)
Definition edge (mdp : @MDP Id) (s s' : @State Id) : Prop :=
  ∃ a, a ∈ [UP; RIGHT; DOWN; LEFT] ∧ _most_likely_successor mdp s a = s'.

(** Some seed of the enumeration is reachable from [s]. *)
Definition reaches_seed (mdp : @MDP Id) (states : list (@State Id))
  (s : @State Id) : Prop :=
  ∃ g, g ∈ states ∧ is_seed g = true ∧ rtc (edge mdp) s g.

(** The variant of the relaxation: how many enumerated states are at
    infinity, and the sum of the finite distances. *)
Definition count_inf (states : list (@State Id)) (d : gmap (@State Id) dist)
  : nat :=
  sum_list (map (λ s, match d !! s with Some Inf => 1 | _ => 0 end) states).

Definition sum_fin (states : list (@State Id)) (d : gmap (@State Id) dist)
  : nat :=
  sum_list (map (λ s, match d !! s with Some (Fin n) => n | _ => 0 end) states).

Definition variant (states : list (@State Id)) (d : gmap (@State Id) dist)
  : nat * nat :=
  (count_inf states d, sum_fin states d).

(** The lexicographic order on variants. *)
Definition lex_lt (m m' : nat * nat) : Prop :=
  fst m < fst m' ∨ (fst m = fst m' ∧ snd m < snd m').

(** What a scan needs, and keeps: the enumerated states and the dequeued
    state are keys of [d], and the queue holds enumerated states. *)
Definition scan_ready (states : list (@State Id)) (t : @State Id)
  (c : gmap (@State Id) dist * list (@State Id)) : Prop :=
  (∀ x, x ∈ states → is_Some (fst c !! x))
  ∧ is_Some (fst c !! t)
  ∧ (∀ x, x ∈ snd c → x ∈ states).

(** The effective distance of taking [a] in [s]. *)
Definition effective (mdp : @MDP Id) (d : gmap (@State Id) dist)
  (s : @State Id) (a : Action) : result dist :=
  candidate d (_most_likely_successor mdp s a).

(** [a] at effective distance [da] beats [b]: [b] is no nearer, and when
    it is as near and another action, [a] comes first in the tie-break. *)
Definition beats (mdp : @MDP Id) (tie_break : list Action)
  (d : gmap (@State Id) dist) (s : @State Id) (a : Action) (da : dist)
  (b : Action) : Prop :=
  ∃ db, effective mdp d s b = Ok db
        ∧ dist_le da db
        ∧ (db = da →
           b = a ∨ ∃ i j, tuple_index tie_break a = Ok i
                          ∧ tuple_index tie_break b = Ok j ∧ i < j).

(** [(best_a, best_d)] after the actions [seen]. *)
Definition best_so_far (mdp : @MDP Id) (tie_break : list Action)
  (d : gmap (@State Id) dist) (s : @State Id) (seen : list Action)
  (best : option Action * dist) : Prop :=
  match fst best with
  | None => seen = [] ∧ snd best = Inf
  | Some a =>
      a ∈ seen ∧ effective mdp d s a = Ok (snd best)
      ∧ ∀ b, b ∈ seen → beats mdp tie_break d s a (snd best) b
  end.

(** What rules out [KeyError] and [ValueError] in the extraction: at an
    enumerated non-terminal state every legal action is in the tie-break
    order, and its most likely successor is enumerated or tagged H. *)
Definition extractable (mdp : @MDP Id) (tie_break : list Action)
  (states : list (@State Id)) : Prop :=
  ∀ s, s ∈ states → is_terminal mdp s = false →
    ∀ a, a ∈ actions mdp s →
      a ∈ tie_break
      ∧ (snd (_most_likely_successor mdp s a) = "H"
         ∨ _most_likely_successor mdp s a ∈ states).

(** The MDP with another table of legal actions. *)
Definition with_actions (mdp : @MDP Id) (acts : @State Id → list Action)
  : @MDP Id :=
  {| transition := transition mdp; is_terminal := is_terminal mdp;
     actions := acts; start_state := start_state mdp |}.

End Notions.

(** ** Small MDPs on which the definitions are run *)

(** A deterministic MDP from a table of moves: [move s a] is where [a] leads
    from [s], when it leads anywhere. *)
Definition table_mdp (move : @State nat → Action → option (@State nat))
  (terminal : list (@State nat)) (legal : @State nat → list Action)
  (start : @State nat) : @MDP nat :=
  {| transition := λ s a,
       match move s a with Some s' => [(s', 1%Q)] | None => [] end;
     is_terminal := λ s, bool_decide (s ∈ terminal);
     actions := legal;
     start_state := start |}.

(** The corridor start, free, goal: RIGHT advances, LEFT goes back. *)
Definition corridor_states : list (@State nat) := [(0, "S"); (1, "F"); (2, "G")].

Definition corridor_move (s : @State nat) (a : Action) : option (@State nat) :=
  if decide (a = RIGHT) then
    match fst s with 0 => Some (1, "F") | 1 => Some (2, "G") | _ => None end
  else if decide (a = LEFT) then
    match fst s with 1 => Some (0, "S") | _ => Some s end
  else None.

Definition corridor : @MDP nat :=
  table_mdp corridor_move [(2, "G")]
    (λ s, if decide (fst s = 2) then [] else [UP; RIGHT; DOWN; LEFT]) (0, "S").

(** The policy-induced matrix and rewards of the corridor under
    RIGHT, RIGHT: what the assembler returns for it. *)
Definition corridor_P : matrix := [[0; 1; 0]; [0; 0; 1]; [0; 0; 0]]%Q.
Definition corridor_r : vector := [0; 1; 0]%Q.

(** A start next to a goal where moving RIGHT is not a legal action: the
    only legal action is LEFT, which stays in place. *)
Definition ledge_states : list (@State nat) := [(0, "S"); (1, "G")].

Definition ledge_move (s : @State nat) (a : Action) : option (@State nat) :=
  if decide (fst s = 0 ∧ a = RIGHT) then Some (1, "G") else None.

Definition ledge : @MDP nat :=
  table_mdp ledge_move [(1, "G")]
    (λ s, if decide (fst s = 0) then [LEFT] else []) (0, "S").

(** The same MDP without the moves of its illegal actions. *)
Definition ledge_legal_moves_only : @MDP nat :=
  table_mdp
    (λ s a, if decide (a ∈ actions ledge s) then ledge_move s a else None)
    [(1, "G")] (actions ledge) (0, "S").

(** A state tagged H that the MDP does not report terminal, next to a goal. *)
Definition open_hole_states : list (@State nat) := [(0, "H"); (1, "G")].

Definition open_hole : @MDP nat :=
  table_mdp ledge_move [(1, "G")]
    (λ s, if decide (fst s = 0) then [RIGHT] else []) (0, "H").

(** Start, a terminal hole to its right, and the goal below the start. *)
Definition pit_states : list (@State nat) := [(0, "S"); (1, "H"); (2, "G")].

Definition pit_move (s : @State nat) (a : Action) : option (@State nat) :=
  if decide (fst s = 0 ∧ a = RIGHT) then Some (1, "H")
  else if decide (fst s = 0 ∧ a = DOWN) then Some (2, "G")
  else if decide (fst s = 1 ∧ a = DOWN) then Some (2, "G")
  else None.

Definition pit : @MDP nat :=
  table_mdp pit_move [(1, "H"); (2, "G")]
    (λ s, if decide (fst s = 0) then [UP; RIGHT; DOWN; LEFT] else []) (0, "S").


(** ** Notions used to state further properties *)

Section Levels.

Context {Id : Type} `{Countable Id}.

(** The work left to the relaxation: the states waiting in the queue and the
    enumerated states still at infinity. *)
Definition pending (states : list (@State Id))
  (c : gmap (@State Id) dist * list (@State Id)) : nat :=
  length (snd c) + count_inf states (fst c).

(** While a state at distance [L] is being scanned: no distance is beyond
    [L + 1], and the queue holds states at distance [L] followed by states at
    distance [L + 1]. *)
Definition level_inv (L : nat) (c : gmap (@State Id) dist * list (@State Id))
  : Prop :=
  (∀ x n, fst c !! x = Some (Fin n) → n ≤ S L)
  ∧ ∃ q1 q2, snd c = q1 ++ q2
             ∧ Forall (λ x, fst c !! x = Some (Fin L)) q1
             ∧ Forall (λ x, fst c !! x = Some (Fin (S L))) q2.

(** At the head of the [while] loop. *)
Definition head_inv (c : gmap (@State Id) dist * list (@State Id)) : Prop :=
  match snd c with
  | [] => True
  | t :: queue => ∃ L, fst c !! t = Some (Fin L) ∧ level_inv L (fst c, queue)
  end.

(** A walk of [n] moves from [s] to a seed: every state of the walk is
    enumerated, every state left is non-terminal, and every move is the most
    likely successor of a directional action. *)
Inductive hops (mdp : @MDP Id) (states : list (@State Id))
  : nat → @State Id → Prop :=
  | hops_seed s :
      s ∈ states → is_seed s = true → hops mdp states 0 s
  | hops_step n s a :
      s ∈ states → is_terminal mdp s = false →
      a ∈ [UP; RIGHT; DOWN; LEFT] →
      hops mdp states n (_most_likely_successor mdp s a) →
      hops mdp states (S n) s.

(** No move into [t] can lower a distance any more. *)
Definition relaxed_into (mdp : @MDP Id) (states : list (@State Id))
  (d : gmap (@State Id) dist) (t : @State Id) : Prop :=
  ∀ m s a,
    d !! t = Some (Fin m) →
    s ∈ states → is_terminal mdp s = false → a ∈ [UP; RIGHT; DOWN; LEFT] →
    _most_likely_successor mdp s a = t →
    ∃ k, d !! s = Some (Fin k) ∧ k ≤ S m.

(** The pairs (state, action) in the order of the two nested loops. *)
Definition scan_pairs (states : list (@State Id)) : list (@State Id * Action) :=
  s ← states; a ← [UP; RIGHT; DOWN; LEFT]; [(s, a)].

End Levels.


(** ** The linear solver *)

(** A linear equation: its coefficients and its right-hand side. *)
Definition equation : Type := (list Q * Q)%type.

(** The coefficient of the first unknown. *)
Definition lead (e : equation) : Q := hd 0%Q (fst e).

(** The first equation whose leading coefficient is not 0, and the others. *)
Fixpoint find_pivot (sys : list equation) : option (equation * list equation) :=
  match sys with
  | [] => None
  | e :: sys' =>
      if Qeq_bool (lead e) 0 then
        match find_pivot sys' with
        | Some (p, rest) => Some (p, e :: rest)
        | None => None
        end
      else Some (e, sys')
  end.

(** [e] minus the multiple of [p] that cancels the first unknown of [e],
    as an equation in the other unknowns. *)
Definition eliminate (p e : equation) : equation :=
  let f := (lead e / lead p)%Q in
  (zip_with (λ u v, (u - f * v)%Q) (tail (fst e)) (tail (fst p)),
   (snd e - f * snd p)%Q).

(** Elimination on a system in [n] unknowns: pick a pivot for the first
    unknown, eliminate it from the other equations, solve these, substitute
    back. Without a pivot the system is singular. *)
Fixpoint gauss (n : nat) (sys : list equation) : result vector :=
  match n with
  | O =>
      if forallb (λ e, Qeq_bool (snd e) 0) sys then Ok [] else Raise LinAlgError
  | S k =>
      match find_pivot sys with
      | None => Raise LinAlgError
      | Some (p, rest) =>
          xs ←r gauss k (map (eliminate p) rest);
          Ok (((snd p - dot (tail (fst p)) xs) / lead p)%Q :: xs)
      end
  end.

(** Modelled from the spec: [np.linalg.solve(a, b)], numpy's solver, which
    [exact_policy_evaluation] calls and which is not in src/. The spec has
    the exact evaluator return the unique solution of the linear system and
    fail with a solver error when the system is singular; numpy documents
    [LinAlgError] for a matrix that is singular or not square. The model
    computes with exact rationals, by elimination. *)
Definition np_linalg_solve (a : matrix) (b : vector) : result vector :=
  if forallb (λ row, length row =? length a) a && (length b =? length a)
  then gauss (length a) (zip a b)
  else Raise LinAlgError.

(** Componentwise equality of vectors of rationals. *)
Definition vec_eq (u v : vector) : Prop := Forall2 Qeq u v.

(** The zero vector, up to the equality of rationals. *)
Definition vec_zero (u : vector) : Prop := Forall (λ x, (x == 0)%Q) u.

(** [a] sends no vector but zero to zero. *)
Definition nonsingular (a : matrix) : Prop :=
  ∀ x, length x = length a → vec_zero (matvec a x) → vec_zero x.

(** [a] sends some vector other than zero to zero. *)
Definition singular (a : matrix) : Prop :=
  ∃ x, length x = length a ∧ vec_zero (matvec a x) ∧ ¬ vec_zero x.

(** [x] satisfies every equation of [sys]. *)
Definition satisfies (x : vector) (sys : list equation) : Prop :=
  Forall (λ e, (dot (fst e) x == snd e)%Q) sys.

(** [x] is sent to 0 by the coefficients of every equation of [sys]. *)
Definition annihilates (x : vector) (sys : list equation) : Prop :=
  Forall (λ e, (dot (fst e) x == 0)%Q) sys.

(** Every equation of [sys] has [n] coefficients. *)
Definition in_unknowns (n : nat) (sys : list equation) : Prop :=
  Forall (λ e, length (fst e) = n) sys.

(** * Properties *)

(** ** Outcomes and loops *)

Lemma bind_Ok {A B : Type} (m : result A) (k : A → result B) (b : B) :
  bind m k = Ok b → ∃ a, m = Ok a ∧ k a = Ok b.
Proof. destruct m; simpl; intros Hb; try done. by exists a. Qed.

(** An invariant of the body is an invariant of the loop. *)
Lemma for_each_inv {A X : Type} (body : A → X → result A) (I : A → Prop)
  (l : list X) (acc acc' : A) :
  I acc →
  (∀ a x a', x ∈ l → I a → body a x = Ok a' → I a') →
  for_each body acc l = Ok acc' → I acc'.
Proof.
  revert acc. induction l as [|x l IH]; simpl; intros acc Hacc Hbody Hrun.
  - by injection Hrun as <-.
  - apply bind_Ok in Hrun as (a1 & H1 & Hrun).
    apply (IH a1); [| |done].
    + eapply Hbody; [|done|done]. by left.
    + intros a y a' Hy. apply Hbody. by right.
Qed.

(** A body that cannot fail under the invariant makes a loop that cannot. *)
Lemma for_each_total {A X : Type} (body : A → X → result A) (I : A → Prop)
  (l : list X) (acc : A) :
  I acc →
  (∀ a x, x ∈ l → I a → ∃ a', body a x = Ok a' ∧ I a') →
  ∃ acc', for_each body acc l = Ok acc' ∧ I acc'.
Proof.
  revert acc. induction l as [|x l IH]; simpl; intros acc Hacc Hbody.
  - by exists acc.
  - destruct (Hbody acc x) as (a1 & H1 & HI1); [by left|done|].
    rewrite H1. simpl. apply IH; [done|].
    intros a y Hy. apply Hbody. by right.
Qed.

(** ** Distances *)

Lemma dist_le_refl x : dist_le x x.
Proof. destruct x; simpl; done. Qed.

Lemma dist_le_trans x y z : dist_le x y → dist_le y z → dist_le x z.
Proof. destruct x, y, z; simpl; try done; lia. Qed.

Lemma dist_lt_le x y : dist_lt x y → dist_le x y.
Proof.
  unfold dist_lt. destruct x, y; simpl; try done.
  intros Hlt%Nat.ltb_lt. lia.
Qed.

Lemma dist_ltb_false_le x y : dist_ltb x y = false → dist_le y x.
Proof.
  destruct x, y; simpl; try done. intros Hlt%Nat.ltb_ge. done.
Qed.

Lemma dist_lt_irrefl x : ¬ dist_lt x x.
Proof.
  unfold dist_lt. destruct x; simpl; [|done]. rewrite Nat.ltb_irrefl. done.
Qed.

Lemma dist_le_antisym x y : dist_le x y → dist_le y x → x = y.
Proof. destruct x, y; simpl; try done. intros. f_equal. lia. Qed.

Lemma dist_lt_succ_fin x y : dist_lt (dist_succ x) y → ∃ n, x = Fin n.
Proof. unfold dist_lt. destruct x; simpl; [eauto|done]. Qed.

(** ** [tuple.index] *)

Lemma tuple_index_lookup (l : list Action) (a : Action) (i : nat) :
  tuple_index l a = Ok i → l !! i = Some a.
Proof.
  revert i. induction l as [|b l IH]; simpl; intros i Hi; [done|].
  destruct (decide (b = a)) as [->|Hne].
  - by injection Hi as <-.
  - apply bind_Ok in Hi as (j & Hj & Hi). injection Hi as <-. simpl. by apply IH.
Qed.

Lemma tuple_index_inj (l : list Action) (a b : Action) (i : nat) :
  tuple_index l a = Ok i → tuple_index l b = Ok i → a = b.
Proof.
  intros Ha%tuple_index_lookup Hb%tuple_index_lookup. congruence.
Qed.

(** ** The most likely successor *)

Section MaxByProb.

Context {X : Type}.

Lemma max_by_prob_spec (l : list (X * Q)) (best : X * Q) :
  ∃ i, (best :: l) !! i = Some (max_by_prob best l)
     ∧ (∀ j x, (best :: l) !! j = Some x → (snd x <= snd (max_by_prob best l))%Q)
     ∧ (∀ j x, (j < i)%nat → (best :: l) !! j = Some x →
          (snd x < snd (max_by_prob best l))%Q).
Proof.
  revert best. induction l as [|y l IH]; intros best.
  - exists 0%nat. simpl. split; [done|]. split.
    + intros [|j] x Hx; simpl in Hx; [|done]. injection Hx as <-. apply Qle_refl.
    + intros j x Hj. lia.
  - simpl. destruct (Qle_bool (snd y) (snd best)) eqn:E.
    + apply Qle_bool_iff in E.
      destruct (IH best) as (i & Hi & Hmax & Hfirst).
      assert (Hb : (snd best <= snd (max_by_prob best l))%Q)
        by (apply (Hmax 0%nat); done).
      destruct i as [|i].
      * exists 0%nat. split; [done|]. split; [|intros; lia].
        intros [|[|j]] x Hx; simpl in Hx.
        -- apply (Hmax 0%nat); done.
        -- injection Hx as <-. by eapply Qle_trans.
        -- apply (Hmax (S j)); done.
      * exists (S (S i)). split; [done|]. split.
        -- intros [|[|j]] x Hx; simpl in Hx.
           ++ apply (Hmax 0%nat); done.
           ++ injection Hx as <-. by eapply Qle_trans.
           ++ apply (Hmax (S j)); done.
        -- intros [|[|j]] x Hj Hx; simpl in Hx.
           ++ apply (Hfirst 0%nat); [lia|done].
           ++ injection Hx as <-. eapply Qle_lt_trans; [exact E|].
              apply (Hfirst 0%nat); [lia|done].
           ++ apply (Hfirst (S j)); [lia|done].
    + assert (Hlt : (snd best < snd y)%Q).
      { apply Qnot_le_lt. intros Hle. apply Qle_bool_iff in Hle. congruence. }
      destruct (IH y) as (i & Hi & Hmax & Hfirst).
      assert (Hy : (snd y <= snd (max_by_prob y l))%Q)
        by (apply (Hmax 0%nat); done).
      exists (S i). split; [done|]. split.
      * intros [|j] x Hx; simpl in Hx.
        -- injection Hx as <-. apply Qlt_le_weak. by eapply Qlt_le_trans.
        -- by apply (Hmax j).
      * intros [|j] x Hj Hx; simpl in Hx.
        -- injection Hx as <-. by eapply Qlt_le_trans.
        -- apply (Hfirst j); [lia|done].
Qed.

End MaxByProb.

Section Successor.

Context {Id : Type} `{Countable Id}.
Implicit Types (mdp : @MDP Id) (s : @State Id) (a : Action).

(** C3. The most likely successor of [(s, a)] is [s] itself when
    [mdp.transition(s, a)] is empty; otherwise it is the successor of a
    listed pair whose probability no listed pair exceeds, and every pair
    listed before that one has a strictly smaller probability: among the
    pairs of maximal probability the first of the list is chosen. *)
Theorem most_likely_successor_first_max mdp s a :
  match transition mdp s a with
  | [] => _most_likely_successor mdp s a = s
  | _ :: _ =>
      ∃ (i : nat) (s' : State) (p : Q),
        transition mdp s a !! i = Some (s', p)
        ∧ _most_likely_successor mdp s a = s'
        ∧ (∀ (j : nat) x, transition mdp s a !! j = Some x → (snd x <= p)%Q)
        ∧ (∀ (j : nat) x, j < i → transition mdp s a !! j = Some x →
             (snd x < p)%Q)
  end.
Proof.
  unfold _most_likely_successor.
  destruct (transition mdp s a) as [|x succs]; [done|].
  destruct (max_by_prob_spec succs x) as (i & Hi & Hmax & Hfirst).
  destruct (max_by_prob x succs) as [s' p] eqn:E.
  exists i, s', p. simpl in *. done.
Qed.

End Successor.

(** ** The relaxation *)

Section Relaxation.

Context {Id : Type} `{Countable Id}.
Variable mdp : @MDP Id.
Variable states : list (@State Id).
Implicit Types (s t x : @State Id) (a : Action) (d : gmap (@State Id) dist)
  (q : list (@State Id)) (c : gmap (@State Id) dist * list (@State Id)).

Lemma dist_nonincreasing_refl d : dist_nonincreasing d d.
Proof.
  intros x. destruct (d !! x); constructor. apply dist_le_refl.
Qed.

Lemma dist_nonincreasing_trans d1 d2 d3 :
  dist_nonincreasing d1 d2 → dist_nonincreasing d2 d3 →
  dist_nonincreasing d1 d3.
Proof.
  intros H12 H23 x. specialize (H12 x). specialize (H23 x).
  destruct H23 as [v3 v2 H32|]; inversion H12 as [v2' v1 H21|]; subst;
    constructor.
  by eapply dist_le_trans.
Qed.

Lemma dist_nonincreasing_insert d x v v' :
  d !! x = Some v → dist_le v' v → dist_nonincreasing d (<[x := v']> d).
Proof.
  intros Hx Hle y. destruct (decide (x = y)) as [<-|Hne].
  - rewrite lookup_insert_eq, Hx. by constructor.
  - rewrite lookup_insert_ne by done. apply dist_nonincreasing_refl.
Qed.

(** *** The initial distance map and queue *)

Lemma init_dist_lookup_gen (l : list (@State Id)) d x :
  foldl (λ d s, <[s := Inf]> d) d l !! x
  = if decide (x ∈ l) then Some Inf else d !! x.
Proof.
  revert d. induction l as [|y l IH]; intros d; simpl.
  - destruct (decide (x ∈ [])) as [Hin|]; [|done]. by apply elem_of_nil in Hin.
  - rewrite IH. destruct (decide (x ∈ l)) as [Hin|Hnin].
    + rewrite decide_True; [done|by right].
    + destruct (decide (x = y)) as [->|Hne].
      * rewrite lookup_insert_eq. rewrite decide_True; [done|by left].
      * rewrite lookup_insert_ne by done. rewrite decide_False; [done|].
        intros [?|?]%elem_of_cons; done.
Qed.

Lemma init_dist_lookup x :
  init_dist states !! x = if decide (x ∈ states) then Some Inf else None.
Proof. unfold init_dist. rewrite init_dist_lookup_gen. done. Qed.

Lemma seeded_gen (l : list (@State Id)) c :
  (∀ x, fst (foldl seed c l) !! x
        = if decide (x ∈ l ∧ is_seed x = true) then Some (Fin 0)
          else fst c !! x)
  ∧ (∀ t, t ∈ snd (foldl seed c l) → t ∈ snd c ∨ (t ∈ l ∧ is_seed t = true)).
Proof.
  revert c. induction l as [|y l IH]; intros c; simpl.
  - split; [done|by left].
  - destruct (IH (seed c y)) as [IHd IHq]. split.
    + intros x. rewrite IHd. unfold seed.
      destruct (decide (x ∈ l ∧ is_seed x = true)) as [[Hin Hs]|Hn].
      * rewrite decide_True; [done|]. split; [by right|done].
      * destruct (is_seed y) eqn:Ey; simpl.
        -- destruct (decide (y = x)) as [->|Hne].
           ++ rewrite lookup_insert_eq. rewrite decide_True; [done|].
              split; [by left|done].
           ++ rewrite lookup_insert_ne by done. rewrite decide_False; [done|].
              intros [[->|?]%elem_of_cons ?]; [done|]. by apply Hn.
        -- rewrite decide_False; [done|].
           intros [[->|?]%elem_of_cons ?]; [congruence|]. by apply Hn.
    + intros t Ht. destruct (IHq t Ht) as [Hc|[Hin Hs]].
      * unfold seed in Hc. destruct (is_seed y) eqn:Ey; simpl in Hc.
        -- apply elem_of_app in Hc as [?|Hy]; [by left|].
           apply list_elem_of_singleton in Hy as ->. right. split; [by left|done].
        -- by left.
      * right. split; [by right|done].
Qed.

Lemma seeded_lookup x :
  fst (seeded states) !! x
  = if decide (x ∈ states)
    then (if is_seed x then Some (Fin 0) else Some Inf)
    else None.
Proof.
  unfold seeded. rewrite (proj1 (seeded_gen states _)). simpl.
  rewrite init_dist_lookup.
  destruct (decide (x ∈ states)) as [Hin|Hnin].
  - destruct (is_seed x) eqn:E.
    + rewrite decide_True; done.
    + rewrite decide_False; [done|]. intros [_ ?]. done.
  - rewrite decide_False; [done|]. intros [? _]. done.
Qed.

Lemma seeded_queue t : t ∈ snd (seeded states) → t ∈ states.
Proof.
  intros Ht. unfold seeded in Ht.
  destruct (proj2 (seeded_gen states _) t Ht) as [Hnil|[? _]]; [|done].
  simpl in Hnil. by apply elem_of_nil in Hnil.
Qed.

(** *** One execution of the body *)

Lemma relax_body_cases t d q s a c' :
  relax_body mdp t (d, q) s a = Ok c' →
  c' = (d, q)
  ∨ (is_terminal mdp s = false
     ∧ _most_likely_successor mdp s a = t
     ∧ ∃ ds n, d !! s = Some ds ∧ d !! t = Some (Fin n)
               ∧ dist_lt (Fin (S n)) ds
               ∧ c' = (<[s := Fin (S n)]> d, q ++ [s])).
Proof.
  unfold relax_body.
  destruct (is_terminal mdp s) eqn:Et; [intros [= <-]; by left|].
  destruct (decide (_most_likely_successor mdp s a = t)) as [Ht|];
    [|intros [= <-]; by left].
  unfold getitem. destruct (d !! s) as [ds|] eqn:Es; simpl; [|done].
  destruct (d !! t) as [dn|] eqn:En; simpl; [|done].
  destruct (dist_ltb (dist_succ dn) ds) eqn:El; intros [= <-]; [|by left].
  right. destruct (dist_lt_succ_fin dn ds El) as [n ->].
  do 2 (split; [done|]). exists ds, n. done.
Qed.

(** The body cannot raise when [s] and [s_next] are keys of [d]. *)
Lemma relax_body_total t d q s a :
  is_Some (d !! s) → is_Some (d !! t) →
  ∃ c', relax_body mdp t (d, q) s a = Ok c'.
Proof.
  intros [ds Hs] [dn Hn]. unfold relax_body.
  destruct (is_terminal mdp s); [eauto|].
  destruct (decide _); [|eauto].
  unfold getitem. rewrite Hs, Hn. simpl.
  destruct (dist_ltb _ _); eauto.
Qed.

(** *** Lifting a property of the body to the loops *)

Lemma scan_inv (I : gmap State dist * list State → Prop) t c c' :
  I c →
  (∀ c1 s a c2, s ∈ states → a ∈ [UP; RIGHT; DOWN; LEFT] → I c1 →
     relax_body mdp t c1 s a = Ok c2 → I c2) →
  scan mdp states t c = Ok c' → I c'.
Proof.
  intros Hc Hbody. unfold scan. apply for_each_inv; [done|].
  intros c1 s c2 Hs H1. apply for_each_inv; [done|].
  intros c3 a c4 Ha H3. by apply Hbody.
Qed.

Lemma scan_total (I : gmap State dist * list State → Prop) t c :
  I c →
  (∀ c1 s a, s ∈ states → I c1 →
     ∃ c2, relax_body mdp t c1 s a = Ok c2 ∧ I c2) →
  ∃ c', scan mdp states t c = Ok c' ∧ I c'.
Proof.
  intros Hc Hbody. unfold scan. apply for_each_total; [done|].
  intros c1 s Hs H1. apply for_each_total; [done|].
  intros c3 a _ H3. by apply Hbody.
Qed.

Lemma relax_inv (J : gmap State dist → Prop) :
  (∀ t d q s a c', s ∈ states → a ∈ [UP; RIGHT; DOWN; LEFT] → J d →
     relax_body mdp t (d, q) s a = Ok c' → J (fst c')) →
  ∀ fuel c d', J (fst c) → relax mdp fuel states c = Ok d' → J d'.
Proof.
  intros Hbody. induction fuel as [|fuel IH]; intros [d q] d' Hc; simpl; [done|].
  destruct q as [|t q]; [by intros [= <-]|].
  intros (c1 & Hscan & Hrun)%bind_Ok.
  apply (IH c1); [|done].
  apply (scan_inv (λ c, J (fst c)) t (d, q) c1); [done| |done].
  intros [d1 q1] s a c2 Hs Ha H1. by apply Hbody.
Qed.

(** More fuel does not change the result. *)
Lemma relax_fuel_mono fuel fuel' c d' :
  relax mdp fuel states c = Ok d' → fuel ≤ fuel' →
  relax mdp fuel' states c = Ok d'.
Proof.
  revert fuel' c. induction fuel as [|fuel IH]; intros fuel' c; simpl; [done|].
  intros Hrun Hle. destruct fuel' as [|fuel']; [lia|]. simpl.
  destruct (snd c) as [|t q]; [done|].
  apply bind_Ok in Hrun as (c1 & -> & Hrun). simpl.
  apply IH; [done|lia].
Qed.

(** *** The properties of the body *)

Lemma relax_body_nonincreasing t d q s a c' :
  relax_body mdp t (d, q) s a = Ok c' → dist_nonincreasing d (fst c').
Proof.
  intros [->|(_ & _ & ds & n & Hs & _ & Hlt & ->)]%relax_body_cases; simpl.
  - apply dist_nonincreasing_refl.
  - eapply dist_nonincreasing_insert; [done|]. by apply dist_lt_le.
Qed.

Lemma relax_body_zero t d q s a c' x :
  relax_body mdp t (d, q) s a = Ok c' →
  d !! x = Some (Fin 0) → fst c' !! x = Some (Fin 0).
Proof.
  intros [->|(_ & _ & ds & n & Hs & _ & Hlt & ->)]%relax_body_cases Hx;
    simpl; [done|].
  rewrite lookup_insert_ne; [done|]. intros ->.
  rewrite Hs in Hx. injection Hx as ->. unfold dist_lt in Hlt. done.
Qed.

Lemma relax_body_keys t d q s a c' x :
  relax_body mdp t (d, q) s a = Ok c' →
  is_Some (fst c' !! x) ↔ is_Some (d !! x).
Proof.
  intros [->|(_ & _ & ds & n & Hs & _ & Hlt & ->)]%relax_body_cases;
    simpl; [done|].
  destruct (decide (s = x)) as [<-|Hne].
  - rewrite lookup_insert_eq, Hs. split; eauto.
  - by rewrite lookup_insert_ne.
Qed.

Lemma relax_body_queue t d q s a c' x :
  relax_body mdp t (d, q) s a = Ok c' →
  x ∈ snd c' → x ∈ q ∨ x = s.
Proof.
  intros [->|(_ & _ & ds & n & Hs & _ & Hlt & ->)]%relax_body_cases;
    simpl; [by left|].
  intros [?|Hx%list_elem_of_singleton]%elem_of_app; [by left|by right].
Qed.

(** A finite distance is a path to a seed. *)
Lemma relax_body_reaches t d q s a c' :
  a ∈ [UP; RIGHT; DOWN; LEFT] →
  relax_body mdp t (d, q) s a = Ok c' →
  (∀ x n, d !! x = Some (Fin n) → reaches_seed mdp states x) →
  ∀ x n, fst c' !! x = Some (Fin n) → reaches_seed mdp states x.
Proof.
  intros Ha [->|(_ & Hta & ds & m & Hs & Ht & Hlt & ->)]%relax_body_cases Hd;
    simpl; [done|].
  intros x n. destruct (decide (s = x)) as [<-|Hne].
  - intros _. destruct (Hd t m Ht) as (g & Hg & Hseed & Hpath).
    exists g. do 2 (split; [done|]).
    eapply rtc_l; [|done]. exists a. done.
  - rewrite lookup_insert_ne by done. apply Hd.
Qed.

(** A terminal state is never assigned a distance. *)
Lemma relax_body_terminal t d q s a c' x :
  relax_body mdp t (d, q) s a = Ok c' →
  is_terminal mdp x = true → fst c' !! x = d !! x.
Proof.
  intros [->|(Hnt & _ & ds & n & Hs & _ & Hlt & ->)]%relax_body_cases Hx;
    simpl; [done|].
  rewrite lookup_insert_ne; [done|]. intros ->. congruence.
Qed.

End Relaxation.

(** ** Termination of the relaxation *)

Lemma sum_list_map_le {A : Type} (f g : A → nat) (l : list A) :
  (∀ y, y ∈ l → f y ≤ g y) → sum_list (map f l) ≤ sum_list (map g l).
Proof.
  induction l as [|z l IH]; simpl; intros Hle; [done|].
  assert (f z ≤ g z) by (apply Hle; by left).
  assert (sum_list (map f l) ≤ sum_list (map g l))
    by (apply IH; intros y Hy; apply Hle; by right).
  lia.
Qed.

Lemma sum_list_map_lt {A : Type} (f g : A → nat) (l : list A) (x : A) :
  x ∈ l → (∀ y, y ∈ l → f y ≤ g y) → f x < g x →
  sum_list (map f l) < sum_list (map g l).
Proof.
  induction l as [|z l IH]; simpl; intros Hx Hle Hlt.
  - by apply elem_of_nil in Hx.
  - assert (f z ≤ g z) by (apply Hle; by left).
    assert (sum_list (map f l) ≤ sum_list (map g l))
      by (apply sum_list_map_le; intros y Hy; apply Hle; by right).
    apply elem_of_cons in Hx as [->|Hx]; [lia|].
    assert (sum_list (map f l) < sum_list (map g l)); [|lia].
    apply IH; [done| |done]. intros y Hy. apply Hle. by right.
Qed.

Lemma lex_lt_trans (m1 m2 m3 : nat * nat) :
  lex_lt m1 m2 → lex_lt m2 m3 → lex_lt m1 m3.
Proof. unfold lex_lt. lia. Qed.

Section Termination.

Context {Id : Type} `{Countable Id}.
Variable mdp : @MDP Id.
Variable states : list (@State Id).
Implicit Types (s t x : @State Id) (a : Action) (d : gmap (@State Id) dist)
  (q : list (@State Id)) (c : gmap (@State Id) dist * list (@State Id)).

(** An assignment of the relaxation decreases the variant. *)
Lemma insert_variant d s ds n :
  s ∈ states → d !! s = Some ds → dist_lt (Fin n) ds →
  lex_lt (variant states (<[s := Fin n]> d)) (variant states d).
Proof.
  intros Hin Hs Hlt. unfold lex_lt, variant, count_inf, sum_fin. simpl.
  destruct ds as [m|].
  - right. split.
    + apply Nat.le_antisymm; apply sum_list_map_le; intros y _;
        (destruct (decide (s = y)) as [<-|Hne];
         [rewrite lookup_insert_eq, Hs; done
         |rewrite lookup_insert_ne by done; done]).
    + apply (sum_list_map_lt _ _ _ s); [done| |].
      * intros y _. destruct (decide (s = y)) as [<-|Hne].
        -- rewrite lookup_insert_eq, Hs. unfold dist_lt in Hlt. simpl in Hlt.
           apply Nat.ltb_lt in Hlt. lia.
        -- rewrite lookup_insert_ne by done. done.
      * rewrite lookup_insert_eq, Hs. unfold dist_lt in Hlt. simpl in Hlt.
        by apply Nat.ltb_lt in Hlt.
  - left. apply (sum_list_map_lt _ _ _ s); [done| |].
    + intros y _. destruct (decide (s = y)) as [<-|Hne].
      * rewrite lookup_insert_eq, Hs. lia.
      * rewrite lookup_insert_ne by done. done.
    + rewrite lookup_insert_eq, Hs. lia.
Qed.

Lemma relax_body_variant t d q s a c' :
  s ∈ states → relax_body mdp t (d, q) s a = Ok c' →
  c' = (d, q) ∨ lex_lt (variant states (fst c')) (variant states d).
Proof.
  intros Hin [->|(_ & _ & ds & n & Hs & _ & Hlt & ->)]%relax_body_cases;
    [by left|right]. simpl. by eapply insert_variant.
Qed.

Lemma scan_progress t d q :
  scan_ready states t (d, q) →
  ∃ c', scan mdp states t (d, q) = Ok c'
        ∧ scan_ready states t c'
        ∧ (c' = (d, q) ∨ lex_lt (variant states (fst c')) (variant states d)).
Proof.
  intros Hready.
  apply (scan_total mdp states
           (λ c1, scan_ready states t c1
                  ∧ (c1 = (d, q)
                     ∨ lex_lt (variant states (fst c1)) (variant states d)))).
  { split; [done|by left]. }
  intros [d1 q1] s a Hs [(Hk & Ht & Hq) Hv]. simpl in *.
  destruct (relax_body_total mdp t d1 q1 s a) as [c2 Hc2]; [by apply Hk|done|].
  exists c2. split; [done|]. split.
  - split; [|split].
    + intros x Hx. apply (relax_body_keys mdp _ _ _ _ _ _ x Hc2). by apply Hk.
    + by apply (relax_body_keys mdp _ _ _ _ _ _ t Hc2).
    + intros x Hx.
      destruct (relax_body_queue mdp _ _ _ _ _ _ x Hc2 Hx) as [?| ->];
        [by apply Hq|done].
  - destruct (relax_body_variant _ _ _ _ _ _ Hs Hc2) as [->|Hlt]; [done|].
    right. destruct Hv as [[= -> ->]|Hv]; [done|]. by eapply lex_lt_trans.
Qed.

Lemma relax_terminates_aux (n1 n2 n3 : nat) :
  ∀ d q,
    count_inf states d = n1 → sum_fin states d = n2 → length q = n3 →
    (∀ x, x ∈ states → is_Some (d !! x)) →
    (∀ x, x ∈ q → x ∈ states) →
    ∃ fuel d', relax mdp fuel states (d, q) = Ok d'.
Proof.
  revert n2 n3.
  induction n1 as [n1 IH1] using lt_wf_ind. intros n2.
  induction n2 as [n2 IH2] using lt_wf_ind. intros n3.
  induction n3 as [n3 IH3] using lt_wf_ind.
  intros d q E1 E2 E3 Hk Hq. destruct q as [|t q].
  { exists 1, d. done. }
  destruct (scan_progress t d q) as ([d1 q1] & Hscan & (Hk1 & _ & Hq1) & Hv).
  { split; [done|]. split.
    - apply Hk, Hq. by left.
    - intros x Hx. apply Hq. by right. }
  simpl in *.
  assert (∃ fuel d', relax mdp fuel states (d1, q1) = Ok d') as (fuel & d' & Hrun).
  { destruct Hv as [[= -> ->]|[Hlt|[Heq Hlt]]]; simpl in *.
    - apply (IH3 (length q)); [lia|done..].
    - apply (IH1 (count_inf states d1) ltac:(lia)
               (sum_fin states d1) (length q1)); done.
    - apply (IH2 (sum_fin states d1) ltac:(lia) (length q1)); [congruence|done..]. }
  exists (S fuel), d'. simpl. rewrite Hscan. done.
Qed.

Lemma distances_terminate : ∃ fuel d, distances mdp fuel states = Ok d.
Proof.
  unfold distances. destruct (seeded states) as [d q] eqn:E.
  apply (relax_terminates_aux _ _ _ d q eq_refl eq_refl eq_refl).
  - intros x Hx. pose proof (seeded_lookup states x) as Hl.
    rewrite E in Hl. simpl in Hl. rewrite Hl, decide_True by done.
    destruct (is_seed x); eauto.
  - intros x Hx. apply (seeded_queue states). by rewrite E.
Qed.

(** C5. The [while] loop of the relaxation terminates on every MDP and
    every finite enumeration of states, whatever cycles the graph of most
    likely successors has: with enough fuel the loop returns a distance map.
    The reason is in the body: it leaves the distance map and the queue
    alone, or it enqueues [s] after making [d[s]] strictly smaller, and no
    distance is below 0. *)
Theorem relaxation_terminates :
  (∃ fuel d, distances mdp fuel states = Ok d)
  ∧ (∀ t d q s a d' q',
       relax_body mdp t (d, q) s a = Ok (d', q') →
       (d' = d ∧ q' = q)
       ∨ (q' = q ++ [s]
          ∧ ∃ ds ds', d !! s = Some ds ∧ d' !! s = Some ds'
                      ∧ dist_lt ds' ds ∧ dist_le (Fin 0) ds')).
Proof.
  split; [apply distances_terminate|].
  intros t d q s a d' q'
    [[= -> ->]|(_ & _ & ds & n & Hs & _ & Hlt & [= -> ->])]%relax_body_cases;
    [by left|right].
  split; [done|]. exists ds, (Fin (S n)).
  rewrite lookup_insert_eq. simpl. repeat split; [done..|lia].
Qed.

End Termination.

(** ** What the relaxation computes *)

Section Distances.

Context {Id : Type} `{Countable Id}.
Variable mdp : @MDP Id.
Variable states : list (@State Id).
Implicit Types (s t x h : @State Id) (a : Action) (d : gmap (@State Id) dist)
  (q : list (@State Id)) (c : gmap (@State Id) dist * list (@State Id)).

Lemma seeded_nonincreasing :
  dist_nonincreasing (init_dist states) (fst (seeded states)).
Proof.
  intros x. rewrite seeded_lookup, init_dist_lookup.
  destruct (decide (x ∈ states)); [|constructor].
  destruct (is_seed x); constructor; done.
Qed.

Lemma distances_nonincreasing fuel d :
  distances mdp fuel states = Ok d →
  dist_nonincreasing (fst (seeded states)) d.
Proof.
  apply (relax_inv mdp states (dist_nonincreasing (fst (seeded states))));
    [|apply dist_nonincreasing_refl].
  intros t d1 q s a c' _ _ H1 Hbody.
  eapply dist_nonincreasing_trans; [done|]. by eapply relax_body_nonincreasing.
Qed.

Lemma distances_zero fuel d x :
  distances mdp fuel states = Ok d →
  fst (seeded states) !! x = Some (Fin 0) → d !! x = Some (Fin 0).
Proof.
  intros Hrun H0. revert Hrun.
  apply (relax_inv mdp states (λ d, d !! x = Some (Fin 0))); [|done].
  intros t d1 q s a c' _ _ H1 Hbody. by eapply relax_body_zero.
Qed.

Lemma distances_keys fuel d x :
  distances mdp fuel states = Ok d → x ∈ states → is_Some (d !! x).
Proof.
  intros Hrun Hx. revert Hrun.
  apply (relax_inv mdp states (λ d, is_Some (d !! x))).
  - intros t d1 q s a c' _ _ H1 Hbody. by eapply relax_body_keys.
  - rewrite seeded_lookup, decide_True by done. destruct (is_seed x); eauto.
Qed.

Lemma distances_finite_reaches fuel d x n :
  distances mdp fuel states = Ok d → d !! x = Some (Fin n) →
  reaches_seed mdp states x.
Proof.
  intros Hrun. revert x n. revert Hrun.
  apply (relax_inv mdp states
           (λ d, ∀ x n, d !! x = Some (Fin n) → reaches_seed mdp states x)).
  - intros t d1 q s a c' _ Ha H1 Hbody. by eapply relax_body_reaches.
  - intros x n. rewrite seeded_lookup.
    destruct (decide (x ∈ states)) as [Hin|]; [|done].
    destruct (is_seed x) eqn:E; [|done]. intros _. by exists x.
Qed.

Lemma distances_terminal fuel d x :
  distances mdp fuel states = Ok d → is_terminal mdp x = true →
  d !! x = fst (seeded states) !! x.
Proof.
  intros Hrun Hx. revert Hrun.
  apply (relax_inv mdp states (λ d, d !! x = fst (seeded states) !! x));
    [|done].
  intros t d1 q s a c' _ _ H1 Hbody. rewrite <- H1.
  by eapply relax_body_terminal.
Qed.

(** C4. Distances only go down, seeds stay at 0, and a non-terminal state
    from which no seed can be reached stays at infinity.
    - The seeding loop lowers the initial map, and every execution of the
      body of the relaxation, from any distance map and any queue, leaves
      every distance as it is or lowers it, and keeps every 0.
    - Every enumerated state tagged G or ⊥ is at 0 when the relaxation
      starts, and still when it ends.
    - When the relaxation ends, no distance is above its initial value, and
      an enumerated non-terminal state that reaches no seed in the graph of
      most likely successors is at infinity. *)
Theorem relaxation_monotone_seeds_fixed_unreachable_infinite :
  dist_nonincreasing (init_dist states) (fst (seeded states))
  ∧ (∀ t d q s a c',
       relax_body mdp t (d, q) s a = Ok c' →
       dist_nonincreasing d (fst c')
       ∧ ∀ x, d !! x = Some (Fin 0) → fst c' !! x = Some (Fin 0))
  ∧ (∀ x, x ∈ states → is_seed x = true →
       fst (seeded states) !! x = Some (Fin 0))
  ∧ (∀ fuel d,
       distances mdp fuel states = Ok d →
       dist_nonincreasing (fst (seeded states)) d
       ∧ (∀ x, x ∈ states → is_seed x = true → d !! x = Some (Fin 0))
       ∧ (∀ s, s ∈ states → is_terminal mdp s = false →
            ¬ reaches_seed mdp states s → d !! s = Some Inf)).
Proof.
  assert (Hseed : ∀ x, x ∈ states → is_seed x = true →
                       fst (seeded states) !! x = Some (Fin 0)).
  { intros x Hx Hs. by rewrite seeded_lookup, decide_True, Hs. }
  split; [apply seeded_nonincreasing|]. split.
  { intros t d q s a c' Hbody. split.
    - by eapply relax_body_nonincreasing.
    - intros x. by eapply relax_body_zero. }
  split; [done|].
  intros fuel d Hrun. split; [by eapply distances_nonincreasing|]. split.
  - intros x Hx Hs. eapply distances_zero; [done|]. by apply Hseed.
  - intros s Hs _ Hno.
    destruct (distances_keys fuel d s Hrun Hs) as [[n|] Hd]; [|done].
    destruct Hno. by eapply distances_finite_reaches.
Qed.

(** C10, amended. A state tagged H that the MDP reports terminal is not a
    seed and is skipped by the relaxation: when the relaxation ends its
    distance is infinity if it is enumerated, and it has no entry otherwise,
    so that the override of the extractor replaces no finite distance. Only
    enumerated states tagged G or ⊥ are at 0 when the relaxation starts. *)
Theorem terminal_hole_keeps_infinity fuel d h :
  distances mdp fuel states = Ok d →
  snd h = "H" →
  is_terminal mdp h = true →
  d !! h = (if decide (h ∈ states) then Some Inf else None)
  ∧ (∀ n, d !! h ≠ Some (Fin n))
  ∧ candidate d h = Ok Inf
  ∧ (∀ x, fst (seeded states) !! x = Some (Fin 0)
          ↔ x ∈ states ∧ (snd x = "G" ∨ snd x = "⊥")).
Proof.
  intros Hrun Htag Hterm.
  assert (Hns : is_seed h = false).
  { unfold is_seed. rewrite Htag. done. }
  assert (Hd : d !! h = if decide (h ∈ states) then Some Inf else None).
  { rewrite (distances_terminal fuel d h Hrun Hterm), seeded_lookup, Hns. done. }
  split; [done|]. split.
  { intros n. rewrite Hd. destruct (decide _); done. }
  split.
  { unfold candidate. rewrite decide_True; done. }
  intros x. rewrite seeded_lookup. unfold is_seed.
  destruct (decide (x ∈ states)) as [Hin|Hnin].
  - destruct (bool_decide (snd x = "G")) eqn:EG; simpl.
    + apply bool_decide_eq_true in EG.
      split; [intros _; split; [done|by left]|done].
    + apply bool_decide_eq_false in EG.
      destruct (bool_decide (snd x = "⊥")) eqn:EA.
      * apply bool_decide_eq_true in EA.
        split; [intros _; split; [done|by right]|done].
      * apply bool_decide_eq_false in EA.
        split; [done|intros [_ [?|?]]; done].
  - split; [done|intros [? _]; done].
Qed.

End Distances.

(** ** The extraction of the policy *)

Section Extraction.

Context {Id : Type} `{Countable Id}.
Variable mdp : @MDP Id.
Variable tie_break : list Action.
Implicit Types (s t x : @State Id) (a b : Action) (d : gmap (@State Id) dist)
  (best : option Action * dist) (policy : gmap (@State Id) Action).

Lemma dist_trichotomy (x y : dist) :
  dist_lt x y ∨ x = y ∨ dist_lt y x.
Proof.
  unfold dist_lt. destruct x as [n|], y as [m|]; simpl; auto.
  destruct (lt_eq_lt_dec n m) as [[?| ->]|?].
  - left. by apply Nat.ltb_lt.
  - right; left. done.
  - right; right. by apply Nat.ltb_lt.
Qed.

Lemma choose_best_so_far d s seen best a best' :
  best_so_far mdp tie_break d s seen best →
  choose mdp tie_break d s best a = Ok best' →
  best_so_far mdp tie_break d s (seen ++ [a]) best'.
Proof.
  destruct best as [best_a best_d]. unfold choose, best_so_far. simpl.
  intros Hinv Hrun.
  apply bind_Ok in Hrun as (cd & Hcd & Hrun).
  apply bind_Ok in Hrun as (better & Hbetter & Hrun).
  assert (Hself : ∀ dd, effective mdp d s a = Ok dd → dd = cd)
    by (unfold effective; intros dd Hdd; congruence).
  destruct best_a as [b0|].
  - destruct Hinv as (Hin & Hb0 & Hall).
    destruct (dist_ltb cd best_d) eqn:Elt.
    + (* strictly nearer *)
      injection Hbetter as <-. injection Hrun as <-. simpl.
      split; [apply elem_of_app; right; by left|]. split; [done|].
      intros b [Hb|Hb%list_elem_of_singleton]%elem_of_app.
      * destruct (Hall b Hb) as (db & Hdb & Hle & _). exists db.
        split; [done|]. split.
        -- eapply dist_le_trans; [|done]. by apply dist_lt_le.
        -- intros ->. exfalso. apply (dist_lt_irrefl cd).
           unfold dist_lt. destruct cd as [n|], best_d as [m|]; simpl in *;
             try done. apply Nat.ltb_lt in Elt. lia.
      * subst b. exists cd. split; [done|]. split; [apply dist_le_refl|].
        intros _. by left.
    + destruct (decide (cd = best_d)) as [->|Hne].
      * (* as near: the tie-break decides *)
        apply bind_Ok in Hbetter as (ia & Hia & Hbetter).
        apply bind_Ok in Hbetter as (ib & Hib & Hbetter).
        injection Hbetter as <-.
        destruct (ia <? ib) eqn:Ei; injection Hrun as <-; simpl.
        -- apply Nat.ltb_lt in Ei.
           split; [apply elem_of_app; right; by left|]. split; [done|].
           intros b [Hb|Hb%list_elem_of_singleton]%elem_of_app.
           ++ destruct (Hall b Hb) as (db & Hdb & Hle & Htie). exists db.
              do 2 (split; [done|]). intros Heq.
              destruct (Htie Heq) as [->|(i & j & Hi & Hj & Hij)].
              ** right. exists ia, ib. done.
              ** right. exists ia, j. split; [done|]. split; [done|].
                 rewrite Hib in Hi. injection Hi as <-. lia.
           ++ subst b. exists best_d. split; [done|].
              split; [apply dist_le_refl|]. intros _. by left.
        -- apply Nat.ltb_ge in Ei.
           split; [apply elem_of_app; by left|]. split; [done|].
           intros b [Hb|Hb%list_elem_of_singleton]%elem_of_app; [by apply Hall|].
           subst b. exists best_d. split; [done|].
           split; [apply dist_le_refl|]. intros _.
           destruct (decide (ib = ia)) as [->|Hneq].
           ++ left. by eapply tuple_index_inj.
           ++ right. exists ib, ia. split; [done|]. split; [done|]. lia.
      * (* farther *)
        injection Hbetter as <-. injection Hrun as <-. simpl.
        split; [apply elem_of_app; by left|]. split; [done|].
        intros b [Hb|Hb%list_elem_of_singleton]%elem_of_app; [by apply Hall|].
        subst b. exists cd. split; [done|].
        split; [by apply dist_ltb_false_le|]. intros ->. done.
  - (* the first action is always taken *)
    destruct Hinv as [-> ->].
    assert (better = true) as ->.
    { destruct (dist_ltb cd Inf) eqn:Elt; [by injection Hbetter as <-|].
      destruct (decide (cd = Inf)) as [->|Hne]; [by injection Hbetter as <-|].
      destruct cd; simpl in *; done. }
    injection Hrun as <-. simpl.
    split; [by left|]. split; [done|].
    intros b Hb%list_elem_of_singleton. subst b. exists cd.
    split; [done|]. split; [apply dist_le_refl|]. intros _. by left.
Qed.

Lemma for_each_choose d s l seen best best' :
  best_so_far mdp tie_break d s seen best →
  for_each (choose mdp tie_break d s) best l = Ok best' →
  best_so_far mdp tie_break d s (seen ++ l) best'.
Proof.
  revert seen best. induction l as [|a l IH]; simpl; intros seen best Hinv Hrun.
  - injection Hrun as <-. by rewrite app_nil_r.
  - apply bind_Ok in Hrun as (best1 & H1 & Hrun).
    replace (seen ++ a :: l) with ((seen ++ [a]) ++ l)
      by (by rewrite <- app_assoc).
    apply (IH _ best1); [|done]. by eapply choose_best_so_far.
Qed.

(** The entry of [s] after the extraction loop over [l], from [policy0]. *)
Lemma extract_lookup d (l : list (@State Id)) policy0 policy s :
  for_each (extract_body mdp tie_break d) policy0 l = Ok policy →
  if decide (s ∈ l ∧ is_terminal mdp s = false) then
    ∃ best, for_each (choose mdp tie_break d s) (None, Inf) (actions mdp s)
            = Ok best
            ∧ policy !! s = match fst best with
                            | Some a => Some a
                            | None => policy0 !! s
                            end
  else policy !! s = policy0 !! s.
Proof.
  revert policy0. induction l as [|y l IH]; simpl; intros policy0 Hrun.
  - by injection Hrun as <-.
  - apply bind_Ok in Hrun as (policy1 & H1 & Hrun).
    specialize (IH policy1 Hrun).
    assert (Hy : if decide (y = s ∧ is_terminal mdp s = false) then
                   ∃ best, for_each (choose mdp tie_break d s) (None, Inf)
                             (actions mdp s) = Ok best
                           ∧ policy1 !! s = match fst best with
                                            | Some a => Some a
                                            | None => policy0 !! s
                                            end
                 else policy1 !! s = policy0 !! s).
    { unfold extract_body in H1.
      destruct (decide (y = s ∧ is_terminal mdp s = false)) as [[-> Ht]|Hn].
      - rewrite Ht in H1. apply bind_Ok in H1 as (best & Hbest & H1).
        exists best. split; [done|].
        destruct (fst best); injection H1 as <-; [|done].
        by rewrite lookup_insert_eq.
      - destruct (is_terminal mdp y) eqn:Ety; [by injection H1 as <-|].
        apply bind_Ok in H1 as (best & Hbest & H1).
        destruct (fst best); injection H1 as <-; [|done].
        rewrite lookup_insert_ne; [done|]. intros ->. by apply Hn. }
    destruct (decide (s ∈ l ∧ is_terminal mdp s = false)) as [[Hin Ht]|Hn].
    + rewrite decide_True; [|split; [by right|done]].
      destruct IH as (best & Hbest & Hp). exists best. split; [done|].
      rewrite Hp. destruct (fst best) eqn:Eb; [done|].
      destruct (decide (y = s ∧ is_terminal mdp s = false)) as [_|_]; [|done].
      destruct Hy as (best2 & Hbest2 & Hp2). rewrite Hp2.
      rewrite Hbest in Hbest2. injection Hbest2 as <-. by rewrite Eb.
    + rewrite IH.
      destruct (decide (y = s ∧ is_terminal mdp s = false)) as [[-> Ht]|Hny].
      * rewrite decide_True; [done|]. split; [by left|done].
      * rewrite decide_False; [done|].
        intros [[->|?]%elem_of_cons ?]; [by apply Hny|by apply Hn].
Qed.

(** What [self._policy] holds for [s] after [extract]. *)
Lemma extract_entry (states : list (@State Id)) d policy s :
  extract mdp tie_break states d = Ok policy →
  match policy !! s with
  | None =>
      s ∈ states → is_terminal mdp s = false → actions mdp s = []
  | Some a =>
      s ∈ states ∧ is_terminal mdp s = false ∧ a ∈ actions mdp s
      ∧ ∃ da, effective mdp d s a = Ok da
              ∧ ∀ b, b ∈ actions mdp s → beats mdp tie_break d s a da b
  end.
Proof.
  intros Hrun. pose proof (extract_lookup d states ∅ policy s Hrun) as Hl.
  destruct (decide (s ∈ states ∧ is_terminal mdp s = false)) as [[Hin Ht]|Hn].
  - destruct Hl as (best & Hbest & Hp).
    pose proof (for_each_choose d s (actions mdp s) [] (None, Inf) best) as Hb.
    simpl in Hb. specialize (Hb (conj eq_refl eq_refl) Hbest).
    unfold best_so_far in Hb. rewrite Hp.
    destruct (fst best) as [a|].
    + destruct Hb as (Ha & Heff & Hall). do 3 (split; [done|]). eauto.
    + rewrite lookup_empty. intros _ _. by destruct Hb.
  - rewrite Hl, lookup_empty. intros ? ?. destruct Hn. done.
Qed.

(** *** The extraction does not raise on an extractable MDP *)

Lemma tuple_index_total (l : list Action) a :
  a ∈ l → ∃ i, tuple_index l a = Ok i.
Proof.
  induction l as [|b l IH]; simpl; intros Ha.
  - by apply elem_of_nil in Ha.
  - destruct (decide (b = a)) as [->|Hne]; [by exists 0|].
    apply elem_of_cons in Ha as [->|Ha]; [done|].
    destruct (IH Ha) as [i ->]. by exists (S i).
Qed.

Lemma choose_total d s best a :
  (∃ cd, effective mdp d s a = Ok cd) → a ∈ tie_break →
  (∀ b, fst best = Some b → b ∈ tie_break) →
  ∃ best', choose mdp tie_break d s best a = Ok best'
           ∧ ∀ b, fst best' = Some b → b ∈ tie_break.
Proof.
  intros [cd Hcd] Ha Hbest. destruct best as [best_a best_d].
  unfold choose. unfold effective in Hcd. rewrite Hcd. simpl.
  destruct (dist_ltb cd best_d).
  { simpl. eexists. split; [done|]. simpl. by intros b [= <-]. }
  destruct (decide (cd = best_d)) as [->|Hne].
  - destruct best_a as [b0|].
    + destruct (tuple_index_total tie_break a Ha) as [ia ->].
      destruct (tuple_index_total tie_break b0) as [ib ->]; [by apply Hbest|].
      simpl. destruct (ia <? ib).
      * eexists. split; [done|]. simpl. by intros b [= <-].
      * eexists. split; [done|]. done.
    + simpl. eexists. split; [done|]. simpl. by intros b [= <-].
  - simpl. eexists. split; [done|]. done.
Qed.

Lemma extract_total (states : list (@State Id)) d :
  extractable mdp tie_break states →
  (∀ x, x ∈ states → is_Some (d !! x)) →
  ∃ policy, extract mdp tie_break states d = Ok policy.
Proof.
  intros Hwf Hkeys. unfold extract.
  destruct (for_each_total (extract_body mdp tie_break d) (λ _, True) states ∅)
    as (policy & Hp & _); [done| |by exists policy].
  intros policy s Hs _. unfold extract_body.
  destruct (is_terminal mdp s) eqn:Et; [by eexists|].
  destruct (for_each_total (choose mdp tie_break d s)
              (λ best, ∀ b, fst best = Some b → b ∈ tie_break)
              (actions mdp s) (None, Inf)) as (best & -> & _).
  - done.
  - intros best a Ha Hbest.
    apply choose_total; [|by apply (Hwf s Hs Et a Ha)|done].
    destruct (Hwf s Hs Et a Ha) as [_ [Hhole|Hin]]; unfold effective, candidate.
    + rewrite decide_True by done. eauto.
    + destruct (decide _); [eauto|]. unfold getitem.
      destruct (Hkeys _ Hin) as [v ->]. eauto.
  - simpl. destruct (fst best); by eexists.
Qed.

End Extraction.

(** ** The constructed policy *)

Section Construction.

Context {Id : Type} `{Countable Id} {Generator : Type}.
Implicit Types (mdp : @MDP Id) (s t x : @State Id) (a b : Action)
  (d : gmap (@State Id) dist) (policy : gmap (@State Id) Action)
  (states : list (@State Id)) (tie_break : list Action).

Lemma build_Ok mdp tie_break fuel states policy :
  _build mdp tie_break fuel states = Ok policy →
  ∃ d, distances mdp fuel states = Ok d
       ∧ extract mdp tie_break states d = Ok policy.
Proof. unfold _build. apply bind_Ok. Qed.

(** The distance map does not depend on the fuel that sufficed. *)
Lemma distances_fuel_irrelevant mdp states fuel1 fuel2 d1 d2 :
  distances mdp fuel1 states = Ok d1 → distances mdp fuel2 states = Ok d2 →
  d1 = d2.
Proof.
  unfold distances. intros H1 H2.
  apply (relax_fuel_mono mdp states fuel1 (fuel1 `max` fuel2)) in H1; [|lia].
  apply (relax_fuel_mono mdp states fuel2 (fuel1 `max` fuel2)) in H2; [|lia].
  congruence.
Qed.

(** C2. When the construction returns, then for every enumerated
    non-terminal state [s]:
    - if [s] has no entry, [s] has no legal action;
    - if the entry of [s] is [a], then [a] is legal at [s], and no legal
      action has a smaller effective distance, and a legal action other
      than [a] with the same effective distance comes after [a] in the
      tie-break order.
    The effective distance of an action is infinity when its most likely
    successor is tagged H, whatever the distance map holds, and [d[s']]
    otherwise. Only enumerated non-terminal states have an entry, a query
    on a state without entry returns the absorbing action, and the default
    tie-break order is RIGHT, DOWN, LEFT, UP. The construction does return
    when legal actions are in the tie-break order and lead to enumerated
    states or to states tagged H. *)
Theorem extractor_takes_first_minimum mdp tie_break states :
  (∀ fuel policy,
     _build mdp tie_break fuel states = Ok policy →
     ∃ d, distances mdp fuel states = Ok d
       ∧ (∀ s, s ∈ states → is_terminal mdp s = false →
            match policy !! s with
            | None => actions mdp s = []
            | Some a =>
                a ∈ actions mdp s
                ∧ ∃ da, effective mdp d s a = Ok da
                        ∧ ∀ b, b ∈ actions mdp s →
                               beats mdp tie_break d s a da b
            end)
       ∧ (∀ s a, effective mdp d s a
                 = if decide (snd (_most_likely_successor mdp s a) = "H")
                   then Ok Inf
                   else getitem d (_most_likely_successor mdp s a))
       ∧ (∀ s, is_Some (policy !! s) → s ∈ states ∧ is_terminal mdp s = false)
       ∧ (∀ (self : @MyPolicy Id _ _ Generator) s,
            self_policy self !! s = None → _decision self s = ABSORB)
       ∧ default_tie_break = [RIGHT; DOWN; LEFT; UP])
  ∧ (extractable mdp tie_break states →
     ∃ fuel policy, _build mdp tie_break fuel states = Ok policy).
Proof.
  split.
  - intros fuel policy (d & Hd & Hex)%build_Ok. exists d. split; [done|]. split.
    { intros s Hs Ht.
      pose proof (extract_entry mdp tie_break states d policy s Hex) as He.
      destruct (policy !! s) as [a|]; [|by apply He].
      destruct He as (_ & _ & Ha & Hmin). done. }
    split; [done|]. split.
    { intros s [a Ha].
      pose proof (extract_entry mdp tie_break states d policy s Hex) as He.
      rewrite Ha in He. destruct He as (? & ? & _). done. }
    split; [|done].
    intros self s Hs. unfold _decision. by rewrite Hs.
  - intros Hwf. destruct (distances_terminate mdp states) as (fuel & d & Hd).
    destruct (extract_total mdp tie_break states d Hwf) as [policy Hp].
    { intros x Hx. by eapply distances_keys. }
    exists fuel, policy. unfold _build. rewrite Hd. done.
Qed.

Variable enumerate_states : @MDP Id → list (@State Id).

(** C8. Two constructions on the same MDP with the same tie-break order
    return the same mapping from states to actions, whatever generators
    they were given and whatever fuel each of them needed. *)
Theorem construction_is_deterministic mdp tie_break
  (rng1 rng2 : Generator) (fuel1 fuel2 : nat)
  (p1 p2 : @MyPolicy Id _ _ Generator) :
  MyPolicy_init enumerate_states fuel1 mdp rng1 tie_break = Ok p1 →
  MyPolicy_init enumerate_states fuel2 mdp rng2 tie_break = Ok p2 →
  self_policy p1 = self_policy p2
  ∧ self_states p1 = self_states p2
  ∧ ∀ s, _decision p1 s = _decision p2 s.
Proof.
  unfold MyPolicy_init.
  intros (pol1 & Hb1 & E1)%bind_Ok (pol2 & Hb2 & E2)%bind_Ok.
  injection E1 as <-. injection E2 as <-. simpl.
  apply build_Ok in Hb1 as (d1 & Hd1 & He1).
  apply build_Ok in Hb2 as (d2 & Hd2 & He2).
  assert (d1 = d2) as -> by (by eapply distances_fuel_irrelevant).
  assert (pol1 = pol2) as -> by congruence.
  done.
Qed.

(** The relaxation never reads the table of legal actions. *)
Lemma distances_ignore_actions mdp (acts : @State Id → list Action) fuel states :
  distances (with_actions mdp acts) fuel states = distances mdp fuel states.
Proof. reflexivity. Qed.

Lemma policy_entry_legal mdp tie_break fuel states policy s a :
  _build mdp tie_break fuel states = Ok policy →
  policy !! s = Some a → a ∈ actions mdp s.
Proof.
  intros (d & Hd & Hex)%build_Ok Ha.
  pose proof (extract_entry mdp tie_break states d policy s Hex) as He.
  rewrite Ha in He. destruct He as (_ & _ & ? & _). done.
Qed.

End Construction.

(** Membership of a closed term in a closed list. *)
Ltac closed_elem_of :=
  apply list_elem_of_In; vm_compute; auto 10.

(** Case analysis on [x ∈ [x1; ...; xn]]. *)
Ltac cases_elem_of Hin :=
  repeat (apply elem_of_cons in Hin as [->|Hin]);
  [..|by apply elem_of_nil in Hin].

Lemma corridor_extractable :
  extractable corridor default_tie_break corridor_states.
Proof.
  intros s Hs Ht a Ha. cases_elem_of Hs; [..|done];
    (change (a ∈ [UP; RIGHT; DOWN; LEFT]) in Ha; cases_elem_of Ha;
     (split; [closed_elem_of|right; closed_elem_of])).
Qed.

(** C2, on the corridor: both cells get RIGHT, the goal gets no entry. *)
Lemma extractor_takes_first_minimum_corridor :
  extractable corridor default_tie_break corridor_states
  ∧ ∃ policy,
    _build corridor default_tie_break 4 corridor_states = Ok policy
    ∧ policy !! (0, "S") = Some RIGHT
    ∧ policy !! (1, "F") = Some RIGHT
    ∧ policy !! (2, "G") = None
    ∧ ∃ d, distances corridor 4 corridor_states = Ok d
      ∧ (∀ s, s ∈ corridor_states → is_terminal corridor s = false →
           match policy !! s with
           | None => actions corridor s = []
           | Some a =>
               a ∈ actions corridor s
               ∧ ∃ da, effective corridor d s a = Ok da
                       ∧ ∀ b, b ∈ actions corridor s →
                              beats corridor default_tie_break d s a da b
           end)
      ∧ (∀ s a, effective corridor d s a
                = if decide (snd (_most_likely_successor corridor s a) = "H")
                  then Ok Inf
                  else getitem d (_most_likely_successor corridor s a))
      ∧ (∀ s, is_Some (policy !! s) →
              s ∈ corridor_states ∧ is_terminal corridor s = false)
      ∧ (∀ (self : @MyPolicy nat _ _ unit) s,
           self_policy self !! s = None → _decision self s = ABSORB)
      ∧ default_tie_break = [RIGHT; DOWN; LEFT; UP].
Proof.
  split; [apply corridor_extractable|].
  eexists. split; [vm_compute; reflexivity|].
  do 3 (split; [vm_compute; reflexivity|]).
  apply (proj1 (extractor_takes_first_minimum (Generator := unit)
                  corridor default_tie_break corridor_states) 4).
  vm_compute. reflexivity.
Defined.

(** C8, on the corridor: two generators, two amounts of fuel. *)
Lemma construction_is_deterministic_corridor :
  ∃ p1 p2 : @MyPolicy nat _ _ bool,
    MyPolicy_init (λ _, corridor_states) 4 corridor true default_tie_break = Ok p1
    ∧ MyPolicy_init (λ _, corridor_states) 9 corridor false default_tie_break
      = Ok p2
    ∧ self_policy p1 = self_policy p2
    ∧ self_states p1 = self_states p2
    ∧ ∀ s, _decision p1 s = _decision p2 s.
Proof.
  eexists. eexists. split; [vm_compute; reflexivity|].
  split; [vm_compute; reflexivity|].
  apply (construction_is_deterministic (λ _, corridor_states) corridor
           default_tie_break true false 4 9); vm_compute; reflexivity.
Defined.

Lemma stranded_start_reaches_no_seed :
  ¬ reaches_seed ledge_legal_moves_only ledge_states (0, "S").
Proof.
  assert (Hloop : ∀ a, _most_likely_successor ledge_legal_moves_only (0, "S") a
                       = (0, "S")).
  { intros a. unfold _most_likely_successor, ledge_legal_moves_only, table_mdp.
    cbn [transition]. change (actions ledge (0, "S")) with [LEFT].
    destruct (decide (a ∈ [LEFT])) as [Ha|]; [|done].
    apply list_elem_of_singleton in Ha as ->. reflexivity. }
  assert (Hstay : ∀ x y, rtc (edge ledge_legal_moves_only) x y →
                         x = (0, "S") → y = (0, "S")).
  { induction 1 as [|x y z Hxy _ IH]; [done|]. intros ->. apply IH.
    destruct Hxy as (a & _ & <-). apply Hloop. }
  intros (g & _ & Hseed & Hpath). apply Hstay in Hpath; [|done].
  subst g. done.
Qed.

(** C4, on the ledge without the moves of illegal actions: the start reaches
    no seed and ends at infinity, the goal is a seed and ends at 0. *)
Lemma relaxation_strands_start :
  ∃ d, distances ledge_legal_moves_only 3 ledge_states = Ok d
    ∧ ¬ reaches_seed ledge_legal_moves_only ledge_states (0, "S")
    ∧ d !! (0, "S") = Some Inf
    ∧ d !! (1, "G") = Some (Fin 0)
    ∧ dist_nonincreasing (fst (seeded ledge_states)) d.
Proof.
  eexists. split; [vm_compute; reflexivity|].
  split; [apply stranded_start_reaches_no_seed|].
  destruct (relaxation_monotone_seeds_fixed_unreachable_infinite
              ledge_legal_moves_only ledge_states) as (_ & _ & _ & Hend).
  destruct (Hend 3 _ eq_refl) as (Hmono & Hseeds & Hinf).
  split; [|split; [|exact Hmono]].
  - apply Hinf; [closed_elem_of|reflexivity|].
    apply stranded_start_reaches_no_seed.
  - apply Hseeds; [closed_elem_of|reflexivity].
Defined.

(** C9. The relaxation scans UP, RIGHT, DOWN, LEFT at every non-terminal
    state and never reads the table of legal actions, whereas every entry of
    the policy is a legal action. On the MDP [ledge], the start is
    non-terminal, RIGHT is not legal there and is the only action that leads
    to the goal; the relaxation nevertheless puts the start at distance 1,
    and at infinity once the moves of illegal actions are taken away; the
    policy holds the legal action LEFT, which stays in place. *)
Theorem relaxation_scans_illegal_actions :
  (∀ (Id : Type) `(Countable Id) (mdp : @MDP Id) acts fuel states,
     distances (with_actions mdp acts) fuel states = distances mdp fuel states)
  ∧ (∀ (Id : Type) `(Countable Id) (mdp : @MDP Id) tie_break fuel states
       policy s a,
       _build mdp tie_break fuel states = Ok policy →
       policy !! s = Some a → a ∈ actions mdp s)
  ∧ (is_terminal ledge (0, "S") = false
     ∧ (RIGHT ∉ actions ledge (0, "S"))
     ∧ (∀ a, _most_likely_successor ledge (0, "S") a = (1, "G") → a = RIGHT)
     ∧ (∃ d, distances ledge 3 ledge_states = Ok d
             ∧ d !! (0, "S") = Some (Fin 1))
     ∧ (∃ d, distances ledge_legal_moves_only 3 ledge_states = Ok d
             ∧ d !! (0, "S") = Some Inf)
     ∧ (∃ policy, _build ledge default_tie_break 3 ledge_states = Ok policy
                  ∧ policy !! (0, "S") = Some LEFT)).
Proof.
  split; [intros; apply distances_ignore_actions|].
  split; [intros; by eapply policy_entry_legal|].
  split; [done|]. split.
  { change (RIGHT ∉ [LEFT]). intros [E|E]%elem_of_cons; [done|].
    by apply elem_of_nil in E. }
  split.
  { intros a. unfold _most_likely_successor, ledge, table_mdp, ledge_move. simpl.
    destruct (decide (0 = 0 ∧ a = RIGHT)) as [[_ ->]|]; [done|].
    intros [=]. }
  split; [eexists; split; vm_compute; reflexivity|].
  split; eexists; split; vm_compute; reflexivity.
Qed.

(** C10 as stated fails: a state tagged H that the MDP does not report
    terminal is relaxed like any other state. In [open_hole] the hole is one
    move away from the goal and ends at distance 1. *)
Lemma open_hole_gets_finite_distance :
  ¬ (∀ (mdp : @MDP nat) (states : list (@State nat)) (fuel : nat)
       (d : gmap (@State nat) dist) (h : @State nat),
       distances mdp fuel states = Ok d → h ∈ states → snd h = "H" →
       d !! h = Some Inf).
Proof.
  intros Hall.
  destruct (distances open_hole 3 open_hole_states) as [d| |] eqn:E;
    [|vm_compute in E; done..].
  assert (Hinf : d !! (0, "H") = Some Inf)
    by (apply (Hall open_hole open_hole_states 3); [done|by left|done]).
  assert (Hd : d !! (0, "H") = Some (Fin 1)).
  { vm_compute in E. injection E as <-. vm_compute. reflexivity. }
  congruence.
Qed.

(** C10 amended, on [pit]: the hole is terminal and stays at infinity. *)
Lemma terminal_hole_keeps_infinity_pit :
  ∃ d, distances pit 3 pit_states = Ok d
    ∧ snd ((1, "H") : @State nat) = "H"
    ∧ is_terminal pit (1, "H") = true
    ∧ d !! (1, "H") = (if decide ((1, "H") ∈ pit_states) then Some Inf else None)
    ∧ (∀ n, d !! (1, "H") ≠ Some (Fin n))
    ∧ candidate d (1, "H") = Ok Inf
    ∧ (∀ x, fst (seeded pit_states) !! x = Some (Fin 0)
            ↔ x ∈ pit_states ∧ (snd x = "G" ∨ snd x = "⊥")).
Proof.
  eexists. split; [vm_compute; reflexivity|].
  split; [reflexivity|]. split; [reflexivity|].
  apply (terminal_hole_keeps_infinity pit pit_states 3); reflexivity.
Defined.

(** ** The entry point *)

Section Run.

Context {Id : Type} `{Countable Id} {Generator : Type}.
Variable enumerate_states : @MDP Id → list (@State Id).
Variable build_policy_Pr :
  @MDP Id → @MyPolicy Id _ _ Generator → list (@State Id) →
  gmap (@State Id) nat → result (matrix * vector).
Variable linalg_solve : matrix → vector → result vector.
Variable default_rng : Generator.

Lemma evaluate_unknown (method : string) P r gamma :
  method ≠ "exact" → method ≠ "iterative" →
  evaluate linalg_solve method P r gamma
  = ([], Raise (ValueError ("Unknown method '" ++ method ++ "'")%string)).
Proof.
  intros Hne Hni. unfold evaluate. by rewrite !decide_False.
Qed.

(** C6. [run] dispatches on exactly two values of [method]: "exact" calls
    the exact evaluator and "iterative" the iterative one. For any other
    string no evaluator is called, [run] returns no result, and, once the
    policy and the pair [(P, r)] have been built, it raises [ValueError]
    with the message [Unknown method '<method>'] and nothing is printed or
    plotted. *)
Theorem run_rejects_unknown_method (fuel : nat) (mdp : @MDP Id) (gamma : Q)
  (rng : option Generator) (method : string) :
  method ≠ "exact" → method ≠ "iterative" →
  (∀ out,
     snd (run enumerate_states build_policy_Pr linalg_solve default_rng
            fuel mdp gamma rng method) ≠ Ok out)
  ∧ fst (run enumerate_states build_policy_Pr linalg_solve default_rng
           fuel mdp gamma rng method) = []
  ∧ (∀ pi P r,
       MyPolicy_init enumerate_states fuel mdp (default default_rng rng)
         default_tie_break = Ok pi →
       build_policy_Pr mdp pi (enumerate_states mdp)
         (index_map (enumerate_states mdp)) = Ok (P, r) →
       run enumerate_states build_policy_Pr linalg_solve default_rng
         fuel mdp gamma rng method
       = ([], Raise (ValueError ("Unknown method '" ++ method ++ "'")%string)))
  ∧ (∀ P r,
       evaluate linalg_solve "exact" P r gamma
       = ([CallExact], exact_policy_evaluation linalg_solve P r gamma))
  ∧ (∀ P r,
       evaluate linalg_solve "iterative" P r gamma
       = ([CallIterative],
          iterative_policy_evaluation P r gamma default_eps default_max_iters)).
Proof.
  intros Hne Hni.
  assert (Hrun :
    ∀ pi P r,
      MyPolicy_init enumerate_states fuel mdp (default default_rng rng)
        default_tie_break = Ok pi →
      build_policy_Pr mdp pi (enumerate_states mdp)
        (index_map (enumerate_states mdp)) = Ok (P, r) →
      run enumerate_states build_policy_Pr linalg_solve default_rng
        fuel mdp gamma rng method
      = ([], Raise (ValueError ("Unknown method '" ++ method ++ "'")%string))).
  { intros pi P r Hpi HPr. unfold run. rewrite Hpi, HPr.
    by rewrite evaluate_unknown. }
  assert (Hcases :
    ∃ e, run enumerate_states build_policy_Pr linalg_solve default_rng
           fuel mdp gamma rng method = ([], Raise e)
         ∨ run enumerate_states build_policy_Pr linalg_solve default_rng
             fuel mdp gamma rng method = ([], OutOfFuel)).
  { destruct (MyPolicy_init enumerate_states fuel mdp (default default_rng rng)
                default_tie_break) as [pi|e|] eqn:Epi.
    - destruct (build_policy_Pr mdp pi (enumerate_states mdp)
                  (index_map (enumerate_states mdp))) as [[P r]|e|] eqn:EPr.
      + eexists. left. by eapply Hrun.
      + exists e. left. unfold run. by rewrite Epi, EPr.
      + exists KeyError. right. unfold run. by rewrite Epi, EPr.
    - exists e. left. unfold run. by rewrite Epi.
    - exists KeyError. right. unfold run. by rewrite Epi. }
  split; [|split; [|split; [done|split; done]]].
  - intros out. destruct Hcases as [e [-> | ->]]; done.
  - destruct Hcases as [e [-> | ->]]; done.
Qed.

End Run.

(** C6, on the corridor with the method "bogus". *)
Lemma run_rejects_bogus :
  "bogus" ≠ "exact" ∧ "bogus" ≠ "iterative"
  ∧ run (λ _, corridor_states) (λ _ _ _ _, Ok (corridor_P, corridor_r))
      (λ _ _, Raise LinAlgError) tt 4 corridor (9 # 10) None "bogus"
    = ([], Raise (ValueError "Unknown method 'bogus'")).
Proof.
  split; [done|]. split; [done|].
  destruct (run_rejects_unknown_method (λ _, corridor_states)
              (λ _ _ _ _, Ok (corridor_P, corridor_r))
              (λ _ _, Raise LinAlgError) tt 4 corridor (9 # 10) None "bogus")
    as (_ & _ & Hrun & _); [done|done|].
  destruct (MyPolicy_init (Generator := unit) (λ _, corridor_states) 4 corridor
              tt default_tie_break) as [pi| |] eqn:Epi;
    [|vm_compute in Epi; done..].
  by apply (Hrun pi corridor_P corridor_r).
Defined.

(** ** Iterative evaluation *)

Section Iterative.

Variables (P : matrix) (r : vector) (gamma eps : Q).

(** A budget that is not positive: no update is computed. *)
Lemma iterative_no_budget (max_iters : Z) :
  (max_iters <= 0)%Z →
  iterative_policy_evaluation P r gamma eps max_iters = Ok (zeros_like r).
Proof.
  intros Hle. unfold iterative_policy_evaluation.
  replace (Z.to_nat max_iters) with 0 by lia. done.
Qed.

(** The early exit returns [v], the iterate from which [v_new] was
    computed, and [v_new] is dropped. *)
Lemma ipe_loop_break (n : nat) (v : vector) (change thr : Q) :
  sup_norm_change (bellman_update v P r gamma) v = Ok change →
  threshold eps gamma = Ok thr →
  Qlt_bool change thr = true →
  ipe_loop P r gamma eps (S n) v = Ok v.
Proof.
  intros Hc Ht Hlt. cbn [ipe_loop]. rewrite Hc. cbn [bind].
  rewrite Ht. cbn [bind]. by rewrite Hlt.
Qed.

(** Otherwise the loop goes on from [v_new]. *)
Lemma ipe_loop_continue (n : nat) (v : vector) (change thr : Q) :
  sup_norm_change (bellman_update v P r gamma) v = Ok change →
  threshold eps gamma = Ok thr →
  Qlt_bool change thr = false →
  ipe_loop P r gamma eps (S n) v
  = ipe_loop P r gamma eps n (bellman_update v P r gamma).
Proof.
  intros Hc Ht Hlt. cbn [ipe_loop]. rewrite Hc. cbn [bind].
  rewrite Ht. cbn [bind]. by rewrite Hlt.
Qed.

End Iterative.

(** C1, at [P = [[1]]], [r = [3/4]], [gamma = 1/2], [eps = 1],
    [max_iters = 5]. The first update gives [3/4]; its distance to the zero
    vector is below the threshold [1], so the loop stops, and the function
    returns the zero vector and not the update it has just computed. The
    value of the policy is [3/2], the fixed point of the update: the update
    [3/4] is within [eps] of it, the returned vector is not. *)
Theorem iterative_evaluation_drops_last_update :
  iterative_policy_evaluation [[1]]%Q [3 # 4]%Q (1 # 2) 1 5 = Ok [0]%Q
  ∧ Forall2 Qeq (bellman_update [0]%Q [[1]]%Q [3 # 4]%Q (1 # 2)) [3 # 4]%Q
  ∧ (∃ change thr,
       sup_norm_change (bellman_update [0]%Q [[1]]%Q [3 # 4]%Q (1 # 2)) [0]%Q
       = Ok change
       ∧ threshold 1 (1 # 2) = Ok thr
       ∧ (change < thr)%Q)
  ∧ Forall2 Qeq (bellman_update [3 # 2]%Q [[1]]%Q [3 # 4]%Q (1 # 2)) [3 # 2]%Q
  ∧ (Qabs ((3 # 4) - (3 # 2)) < 1)%Q
  ∧ (1 <= Qabs (0 - (3 # 2)))%Q.
Proof.
  split; [vm_compute; reflexivity|].
  split; [repeat constructor|].
  split.
  { eexists. eexists. split; [vm_compute; reflexivity|].
    split; [vm_compute; reflexivity|]. vm_compute. reflexivity. }
  split; [repeat constructor|].
  split; [vm_compute; reflexivity|].
  vm_compute. discriminate.
Qed.

(** ** Exact evaluation *)

(** [exact_policy_evaluation] hands [I - gamma * P] and [r] to the solver and
    returns what the solver returns, its error included. *)
Lemma exact_policy_evaluation_is_solve
  (linalg_solve : matrix → vector → result vector) (P : matrix) (r : vector)
  (gamma : Q) :
  exact_policy_evaluation linalg_solve P r gamma
  = linalg_solve (I_minus_gamma_P gamma P) r.
Proof. reflexivity. Qed.

(** ** The linear solver *)

Lemma dot_cons (a : Q) (r : vector) (x : Q) (xs : vector) :
  dot (a :: r) (x :: xs) = (a * x + dot r xs)%Q.
Proof. reflexivity. Qed.

Lemma dot_eliminate (f : Q) (r1 r2 xs : vector) :
  length r1 = length xs → length r2 = length xs →
  (dot (zip_with (λ u v, u - f * v) r1 r2) xs == dot r1 xs - f * dot r2 xs)%Q.
Proof.
  revert r1 r2. induction xs as [|x xs IH]; intros [|a1 r1] [|a2 r2];
    simpl; try done; intros H1 H2.
  - unfold dot. simpl. ring.
  - rewrite !dot_cons, IH by lia. ring.
Qed.

Lemma dot_vec_eq (r x y : vector) :
  vec_eq x y → (dot r x == dot r y)%Q.
Proof.
  intros Hxy. revert r. induction Hxy as [|x0 y0 x y H0 _ IH]; intros [|a r];
    try reflexivity.
  rewrite !dot_cons, H0, (IH r). reflexivity.
Qed.

Lemma dot_vec_zero (r x : vector) : vec_zero x → (dot r x == 0)%Q.
Proof.
  intros Hx. revert r. induction Hx as [|x0 x H0 _ IH]; intros [|a r];
    try reflexivity.
  rewrite dot_cons, H0, (IH r). ring.
Qed.

Lemma dot_add (r x z : vector) :
  length x = length z →
  (dot r (zip_with Qplus x z) == dot r x + dot r z)%Q.
Proof.
  revert r z. induction x as [|x0 x IH]; intros [|a r] [|z0 z]; simpl;
    try done; intros Hlen; try (unfold dot; simpl; ring).
  rewrite !dot_cons, IH by lia. ring.
Qed.

(** Eliminating the first unknown keeps the solutions: given the pivot
    equation, an equation holds exactly when its reduced form does. *)
Lemma elim_equiv (a_p D_p c_p a_e D_e c_e x0 : Q) :
  ¬ (a_p == 0)%Q →
  (a_p * x0 + D_p == c_p)%Q →
  (a_e * x0 + D_e == c_e)%Q
  ↔ (D_e - (a_e / a_p) * D_p == c_e - (a_e / a_p) * c_p)%Q.
Proof.
  intros Hnz Hp. rewrite <- Hp. split; intros He.
  - rewrite <- He. field. exact Hnz.
  - assert (Hc : (c_e == (D_e - a_e / a_p * D_p)
                         + a_e / a_p * (a_p * x0 + D_p))%Q).
    { rewrite He. field. exact Hnz. }
    rewrite Hc. field. exact Hnz.
Qed.

Lemma find_pivot_Some (sys : list equation) p rest :
  find_pivot sys = Some (p, rest) →
  ¬ (lead p == 0)%Q
  ∧ length sys = S (length rest)
  ∧ ∀ Pr : equation → Prop, Forall Pr sys ↔ Pr p ∧ Forall Pr rest.
Proof.
  revert p rest. induction sys as [|e sys IH]; simpl; intros p rest Hf; [done|].
  destruct (Qeq_bool (lead e) 0) eqn:E.
  - destruct (find_pivot sys) as [[p1 rest1]|]; [|done].
    injection Hf as <- <-. destruct (IH p1 rest1 eq_refl) as (Hnz & Hlen & Hall).
    split; [done|]. split; [simpl; lia|].
    intros Pr. rewrite !Forall_cons, Hall. tauto.
  - injection Hf as <- <-. split.
    + intros Hz. apply Qeq_bool_iff in Hz. congruence.
    + split; [done|]. intros Pr. by rewrite Forall_cons.
Qed.

Lemma find_pivot_None (sys : list equation) :
  find_pivot sys = None → Forall (λ e, (lead e == 0)%Q) sys.
Proof.
  induction sys as [|e sys IH]; simpl; intros Hf; [constructor|].
  destruct (Qeq_bool (lead e) 0) eqn:E; [|done].
  destruct (find_pivot sys) as [[p1 rest1]|]; [done|].
  constructor; [by apply Qeq_bool_iff|by apply IH].
Qed.

Lemma eliminate_in_unknowns (k : nat) p (rest : list equation) :
  length (fst p) = S k → in_unknowns (S k) rest →
  in_unknowns k (map (eliminate p) rest).
Proof.
  intros Hp Hrest. unfold in_unknowns. rewrite Forall_map.
  eapply Forall_impl; [exact Hrest|]. intros e He. simpl.
  simpl in He. rewrite length_zip_with, !length_tl, He, Hp. simpl. lia.
Qed.

(** An equation in [S k] unknowns and its reduced form, given the pivot. *)
Lemma eliminate_equiv (k : nat) (p e : equation) (x0 : Q) (xs : vector) :
  length (fst p) = S k → length (fst e) = S k → length xs = k →
  ¬ (lead p == 0)%Q →
  (dot (fst p) (x0 :: xs) == snd p)%Q →
  (dot (fst e) (x0 :: xs) == snd e)%Q
  ↔ (dot (fst (eliminate p e)) xs == snd (eliminate p e))%Q.
Proof.
  destruct p as [[|a_p r_p] c_p], e as [[|a_e r_e] c_e]; simpl; try done.
  intros Hp He Hxs Hnz Hpivot. unfold eliminate, lead. simpl.
  rewrite dot_cons in *. rewrite dot_eliminate by lia.
  by apply elim_equiv.
Qed.

(** What elimination returns is the one solution of the system. *)
Lemma gauss_Ok (n : nat) :
  ∀ (sys : list equation) (x : vector),
    in_unknowns n sys → gauss n sys = Ok x →
    length x = n ∧ satisfies x sys
    ∧ ∀ y, length y = n → satisfies y sys → vec_eq y x.
Proof.
  induction n as [|k IH]; intros sys x Hwf; simpl.
  - case_match eqn:E; [|done]. intros [= <-].
    split; [done|]. split.
    + unfold satisfies. apply Forall_forall. intros e He.
      assert (Hlen : length (fst e) = 0)
        by (by eapply (proj1 (Forall_forall _ _) Hwf)).
      destruct (fst e); [|done].
      apply Is_true_true, forallb_True in E.
      pose proof (proj1 (Forall_forall _ _) E e He) as Hz.
      apply Is_true_true, Qeq_bool_iff in Hz. rewrite Hz. reflexivity.
    + intros [|? ?] Hy _; [constructor|done].
  - destruct (find_pivot sys) as [[p rest]|] eqn:Ef; [|done].
    destruct (find_pivot_Some sys p rest Ef) as (Hnz & _ & Hall).
    intros (xs & Hxs & [= <-])%bind_Ok.
    pose proof (proj1 (Hall (λ e, length (fst e) = S k)) Hwf) as [Hp Hrest].
    destruct (IH _ xs (eliminate_in_unknowns k p rest Hp Hrest) Hxs)
      as (Hlen & Hsat & Huniq).
    set (x0 := ((snd p - dot (tail (fst p)) xs) / lead p)%Q).
    assert (Hpivot : (dot (fst p) (x0 :: xs) == snd p)%Q).
    { subst x0. destruct p as [[|a_p r_p] c_p]; [done|].
      unfold lead in *. simpl in *. rewrite dot_cons. field. exact Hnz. }
    split; [simpl; lia|]. split.
    + apply (Hall (λ e, (dot (fst e) (x0 :: xs) == snd e)%Q)).
      split; [done|].
      unfold satisfies in Hsat. rewrite Forall_map in Hsat.
      apply Forall_forall. intros e He.
      apply (eliminate_equiv k p e x0 xs); try done.
      * by eapply (proj1 (Forall_forall _ _) Hrest).
      * by eapply (proj1 (Forall_forall _ _) Hsat).
    + intros [|y0 ys] Hy Hysat; [done|]. simpl in Hy.
      apply (Hall (λ e, (dot (fst e) (y0 :: ys) == snd e)%Q))
        in Hysat as [Hyp Hyrest].
      assert (Hys : vec_eq ys xs).
      { apply Huniq; [lia|]. unfold satisfies. rewrite Forall_map.
        apply Forall_forall. intros e He.
        apply (eliminate_equiv k p e y0 ys); try done; try lia.
        - by eapply (proj1 (Forall_forall _ _) Hrest).
        - by eapply (proj1 (Forall_forall _ _) Hyrest). }
      constructor; [|done].
      subst x0. destruct p as [[|a_p r_p] c_p]; [done|].
      unfold lead in *. simpl in *. rewrite dot_cons in Hyp.
      rewrite <- (dot_vec_eq r_p ys xs Hys), <- Hyp. field. exact Hnz.
Qed.

(** Elimination returns a vector or raises [LinAlgError], nothing else. *)
Lemma gauss_outcome (n : nat) :
  ∀ sys, (∃ x, gauss n sys = Ok x) ∨ gauss n sys = Raise LinAlgError.
Proof.
  induction n as [|k IH]; intros sys; simpl.
  - case_match; eauto.
  - destruct (find_pivot sys) as [[p rest]|]; [|by right].
    destruct (IH (map (eliminate p) rest)) as [[xs ->]| ->]; simpl; eauto.
Qed.

(** On as many equations as unknowns, elimination succeeds when only the
    zero vector is sent to zero. *)
Lemma gauss_total (n : nat) :
  ∀ sys : list equation,
    in_unknowns n sys → length sys = n →
    (∀ x, length x = n → annihilates x sys → vec_zero x) →
    ∃ x, gauss n sys = Ok x.
Proof.
  induction n as [|k IH]; intros sys Hwf Hlen Hker; simpl.
  - destruct sys; [|done]. simpl. by eexists.
  - destruct (find_pivot sys) as [[p rest]|] eqn:Ef.
    + destruct (find_pivot_Some sys p rest Ef) as (Hnz & Hlen' & Hall).
      pose proof (proj1 (Hall (λ e, length (fst e) = S k)) Hwf) as [Hp Hrest].
      destruct (IH (map (eliminate p) rest)) as [xs ->]; [| | |by eexists].
      * by apply eliminate_in_unknowns.
      * rewrite length_map. lia.
      * intros ys Hys Hann.
        set (y0 := ((0 - dot (tail (fst p)) ys) / lead p)%Q).
        assert (Hpivot : (dot (fst p) (y0 :: ys) == 0)%Q).
        { subst y0. destruct p as [[|a_p r_p] c_p]; [done|].
          unfold lead in *. simpl in *. rewrite dot_cons. field. exact Hnz. }
        assert (Hz : vec_zero (y0 :: ys)).
        { apply Hker; [simpl; lia|].
          apply (Hall (λ e, (dot (fst e) (y0 :: ys) == 0)%Q)).
          split; [done|].
          unfold annihilates in Hann. rewrite Forall_map in Hann.
          apply Forall_forall. intros e He.
          pose proof (proj1 (Forall_forall _ _) Hrest e He) as Hle.
          pose proof (proj1 (Forall_forall _ _) Hann e He) as Hae.
          apply (eliminate_equiv k (fst p, 0%Q) (fst e, 0%Q) y0 ys);
            try done.
          simpl in *. rewrite Hae. unfold lead. simpl. ring. }
        by inversion Hz.
    + exfalso. apply find_pivot_None in Ef.
      assert (Hz : vec_zero (1%Q :: map (λ _, 0%Q) (seq 0 k))).
      { apply Hker; [simpl; by rewrite length_map, length_seq|].
        unfold annihilates. apply Forall_forall. intros e He.
        pose proof (proj1 (Forall_forall _ _) Hwf e He) as Hle.
        pose proof (proj1 (Forall_forall _ _) Ef e He) as Hl0.
        destruct e as [[|a r] c]; [done|].
        unfold lead in Hl0. simpl in Hl0 |- *.
        rewrite dot_cons, Hl0, dot_vec_zero; [ring|].
        unfold vec_zero. rewrite Forall_map. apply Forall_forall.
        intros; reflexivity. }
      inversion Hz as [|? ? H1 _]. discriminate H1.
Qed.
